(** * nmt_decoder.py: the line-oriented translation server

    A shallow embedding of [src/decoder-opennmt/src/python/nmt_decoder.py]:
    the request/response codec ([TranslationRequest.from_json_string],
    [TranslationResponse.to_json_string]), the worker and printer loops, and
    the controller ([MainController.serve_forever], [MainController._close]).

    The threads of the program are modelled by an interleaving semantics: a
    function [exec] performs the next atomic action of one thread on the shared
    state (the two queues, the threads' control points, the output stream),
    and a schedule is the list of threads that get to move. *)

From Stdlib Require Import ZArith String Ascii List Lia Bool.
From stdpp Require Import base tactics option list.
Import ListNotations.
Set Warnings "-register-all".
Local Open Scope string_scope.
Local Open Scope list_scope.

(** ** Python values the program handles *)

(** An exception instance, as far as the program looks at it:
    [type(e).__name__] and [str(e)]. *)
Record exn : Type := Exn { exn_type : string; exn_str : string }.

(** Result of a call that may raise. *)
Inductive result (A : Type) : Type :=
| Ok (a : A)
| Raise (e : exn).
Arguments Ok {A} a.
Arguments Raise {A} e.

Definition bind {A B : Type} (r : result A) (k : A -> result B) : result B :=
  match r with
  | Ok a => k a
  | Raise e => Raise e
  end.

Notation "'try!' x <- r ; k" := (bind r (fun x => k))
  (at level 10, x name, r at level 100, k at level 200).

(** The exceptions the interpreter raises inside [from_json_string].  The
    message texts are the interpreter's and are not fixed by the source; no
    statement below depends on them. *)
Definition ValueError (msg : string) : exn := Exn "ValueError" msg.
Definition KeyError (key : string) : exn := Exn "KeyError" key.
Definition TypeError (msg : string) : exn := Exn "TypeError" msg.
Definition AttributeError (msg : string) : exn := Exn "AttributeError" msg.
Definition OverflowError (msg : string) : exn := Exn "OverflowError" msg.
Definition RuntimeError (msg : string) : exn := Exn "RuntimeError" msg.

(** [except KeyboardInterrupt] *)
Definition is_KeyboardInterrupt (e : exn) : bool :=
  String.eqb (exn_type e) "KeyboardInterrupt".

(** What [json.loads] returns, over a type [F] of floating point numbers. *)
Inductive json (F : Type) : Type :=
| JNull
| JBool (b : bool)
| JInt (n : Z)
| JFloat (f : F)
| JStr (s : string)
| JArr (items : list (json F))
| JObj (members : list (string * json F)).
Arguments JNull {F}.
Arguments JBool {F} b.
Arguments JInt {F} n.
Arguments JFloat {F} f.
Arguments JStr {F} s.
Arguments JArr {F} items.
Arguments JObj {F} members.

(** A Python number: [0] and [float(x)] are values of different types. *)
Inductive pynum (F : Type) : Type :=
| PyInt (n : Z)
| PyFloat (f : F).
Arguments PyInt {F} n.
Arguments PyFloat {F} f.

(** The parts of the Python runtime the module calls: the [json] module and
    the conversions behind [int()] and [float()]. *)
Class Runtime : Type := {
  pyfloat : Type;
  json_loads : string -> option (json pyfloat);   (* None: ValueError *)
  json_dumps : json pyfloat -> string;
  int_of_string : string -> option Z;             (* int("12"); None: ValueError *)
  float_of_string : string -> option pyfloat;     (* float("0.1"); None: ValueError *)
  float_of_Z : Z -> option pyfloat;               (* float(10); None: OverflowError *)
  float_is_nan : pyfloat -> bool;
  float_is_inf : pyfloat -> bool;
  float_trunc : pyfloat -> Z                      (* int(2.7) = 2 *)
}.

(** ** Strings: [str.split(' ')] and [' '.join] *)

(** [s.split(sep)] for a one-character separator: no collapsing of repeated
    separators, and the empty string splits into one empty token. *)
Fixpoint split (sep : ascii) (s : string) : list string :=
  match s with
  | EmptyString => [EmptyString]
  | String c rest =>
      if Ascii.eqb c sep then EmptyString :: split sep rest
      else match split sep rest with
           | tok :: toks => String c tok :: toks
           | [] => [String c EmptyString]
           end
  end.

(** [sep.join(tokens)] *)
Fixpoint join (sep : string) (tokens : list string) : string :=
  match tokens with
  | [] => EmptyString
  | [tok] => tok
  | tok :: rest => tok ++ sep ++ join sep rest
  end.

Definition space : ascii := " "%char.

(** The string [backslash-n] that follows every response. *)
Definition newline : string := String (ascii_of_nat 10) EmptyString.

(** ** Dictionaries *)

Section Dict.
Context {V : Type}.

(** [d[key]] as a lookup; [key in d] is [is_Some] of it. *)
Fixpoint dict_get (key : string) (d : list (string * V)) : option V :=
  match d with
  | [] => None
  | (k, v) :: rest => if String.eqb k key then Some v else dict_get key rest
  end.

(** [d[key] = v] *)
Fixpoint dict_set (key : string) (v : V) (d : list (string * V)) : list (string * V) :=
  match d with
  | [] => [(key, v)]
  | (k, w) :: rest =>
      if String.eqb k key then (k, v) :: rest else (k, w) :: dict_set key v rest
  end.
End Dict.

(** ** The message model *)

(** Modelled from the spec: the class [Suggestion] is imported from the [nmt]
    package, which is not part of the sources; it is constructed from the
    source tokens, the target tokens and the score, in this order. *)
Record Suggestion (F : Type) : Type := mkSuggestion {
  sugg_source : list string;
  sugg_target : list string;
  sugg_score : pynum F
}.
Arguments mkSuggestion {F} _ _ _.
Arguments sugg_source {F} _.
Arguments sugg_target {F} _.
Arguments sugg_score {F} _.

Record TranslationRequest (F : Type) : Type := mkTranslationRequest {
  req_id : Z;
  req_source : list string;
  req_suggestions : list (Suggestion F)
}.
Arguments mkTranslationRequest {F} _ _ _.
Arguments req_id {F} _.
Arguments req_source {F} _.
Arguments req_suggestions {F} _.

(** [TranslationRequest.__init__(_id, source, suggestions=None)] *)
Definition TranslationRequest_init {F : Type} (_id : Z) (source : list string)
    (suggestions : option (list (Suggestion F))) : TranslationRequest F :=
  {| req_id := _id;
     req_source := source;
     req_suggestions := match suggestions with
                        | Some l => l
                        | None => []
                        end |}.

Record TranslationResponse : Type := mkTranslationResponse {
  resp_id : Z;
  translation : option (list string);
  error_type : option string;
  error_message : option string
}.

(** [TranslationResponse.__init__(_id, translation=None, exception=None)] *)
Definition TranslationResponse_init (_id : Z) (translation : option (list string))
    (exception : option exn) : TranslationResponse :=
  {| resp_id := _id;
     translation := translation;
     error_type := match exception with
                   | Some e => Some (exn_type e)
                   | None => None
                   end;
     error_message := match exception with
                      | Some e => if String.eqb (exn_str e) "" then None
                                  else Some (exn_str e)
                      | None => None
                      end |}.

Section Codec.
Context {RT : Runtime}.

Abbreviation value := (json pyfloat).

(** [int(v)] on a value that came out of [json.loads] *)
Definition py_int (v : value) : result Z :=
  match v with
  | JInt n => Ok n
  | JBool b => Ok (if b then 1%Z else 0%Z)
  | JFloat f =>
      if float_is_nan f then Raise (ValueError "cannot convert float NaN to integer")
      else if float_is_inf f
           then Raise (OverflowError "cannot convert float infinity to integer")
           else Ok (float_trunc f)
  | JStr s =>
      match int_of_string s with
      | Some n => Ok n
      | None => Raise (ValueError "invalid literal for int()")
      end
  | _ => Raise (TypeError "int() argument must be a string or a number")
  end.

(** [float(v)] on a value that came out of [json.loads] *)
Definition py_float (v : value) : result pyfloat :=
  match v with
  | JFloat f => Ok f
  | JInt n =>
      match float_of_Z n with
      | Some f => Ok f
      | None => Raise (OverflowError "long int too large to convert to float")
      end
  | JBool b =>
      match float_of_Z (if b then 1%Z else 0%Z) with
      | Some f => Ok f
      | None => Raise (OverflowError "long int too large to convert to float")
      end
  | JStr s =>
      match float_of_string s with
      | Some f => Ok f
      | None => Raise (ValueError "could not convert string to float")
      end
  | _ => Raise (TypeError "float() argument must be a string or a number")
  end.

(** [obj[key]]: only a dict can be indexed by a string. *)
Definition getitem (obj : value) (key : string) : result value :=
  match obj with
  | JObj members =>
      match dict_get key members with
      | Some v => Ok v
      | None => Raise (KeyError key)
      end
  | _ => Raise (TypeError "indices must be integers")
  end.

(** [v.split(' ')]: only strings have the method. *)
Definition py_split (v : value) : result (list string) :=
  match v with
  | JStr s => Ok (split space s)
  | _ => Raise (AttributeError "object has no attribute 'split'")
  end.

(** [for sobj in v]: a list gives its items, a dict its keys, a string its
    characters; the other values are not iterable. *)
Definition py_iter (v : value) : result (list value) :=
  match v with
  | JArr items => Ok items
  | JObj members => Ok (map (fun kv => JStr (fst kv)) members)
  | JStr s => Ok (map (fun c => JStr (String c EmptyString)) (list_ascii_of_string s))
  | _ => Raise (TypeError "object is not iterable")
  end.

(** The body of the loop over [obj['suggestions']] (lines 28-32).  Once
    [sobj['source']] has been read, [sobj] is a dict, and ['score' in sobj]
    is a key test. *)
Definition parse_suggestion (sobj : value) : result (Suggestion pyfloat) :=
  try! src <- getitem sobj "source" ;
  try! suggestion_source <- py_split src ;
  try! tgt <- getitem sobj "target" ;
  try! suggestion_target <- py_split tgt ;
  try! suggestion_score <-
    match sobj with
    | JObj members =>
        match dict_get "score" members with
        | Some sc => try! f <- py_float sc ; Ok (PyFloat f)
        | None => Ok (PyInt 0%Z)
        end
    | _ => Raise (TypeError "argument is not iterable")
    end ;
  Ok (mkSuggestion suggestion_source suggestion_target suggestion_score).

(** The loop itself: [suggestions.append(...)] for each item, in order; the
    first failure leaves the loop. *)
Fixpoint parse_suggestions (sobjs : list value) : result (list (Suggestion pyfloat)) :=
  match sobjs with
  | [] => Ok []
  | sobj :: rest =>
      try! sg <- parse_suggestion sobj ;
      try! sgs <- parse_suggestions rest ;
      Ok (sg :: sgs)
  end.

(** Lines 22-34, on the object [json.loads] returned. *)
Definition from_json_obj (obj : value) : result (TranslationRequest pyfloat) :=
  try! idv <- getitem obj "id" ;
  try! id_ <- py_int idv ;
  try! srcv <- getitem obj "source" ;
  try! source <- py_split srcv ;
  try! suggestions <-
    match obj with
    | JObj members =>
        match dict_get "suggestions" members with
        | Some sv => try! sobjs <- py_iter sv ; parse_suggestions sobjs
        | None => Ok []
        end
    | _ => Raise (TypeError "argument is not iterable")
    end ;
  Ok (TranslationRequest_init id_ source (Some suggestions)).

(** [TranslationRequest.from_json_string] *)
Definition from_json_string (json_string : string) : result (TranslationRequest pyfloat) :=
  match json_loads json_string with
  | Some obj => from_json_obj obj
  | None => Raise (ValueError "No JSON object could be decoded")
  end.

(** The dict [jobj] that [to_json_string] builds (lines 45-53), as the list
    of its items in the order of their insertion. *)
Definition to_json_obj (r : TranslationResponse) : value :=
  let jobj := [("id", JInt (resp_id r))] in
  match translation r with
  | Some tokens => JObj (dict_set "translation" (JStr (join " " tokens)) jobj)
  | None =>
      let error := [("type", match error_type r with
                             | Some name => JStr name
                             | None => JNull
                             end)] in
      let error := match error_message r with
                   | Some msg => dict_set "message" (JStr msg) error
                   | None => error
                   end in
      JObj (dict_set "error" (JObj error) jobj)
  end.

(** [TranslationResponse.to_json_string] *)
Definition to_json_string (r : TranslationResponse) : string :=
  json_dumps (to_json_obj r).

(** The score of the suggestion [sg] parsed from the object [sobj]:
    [float(sobj['score'])] when the object has the key, the integer 0 when it
    has not. *)
Definition score_parsed (sobj : json pyfloat) (sg : Suggestion pyfloat) : Prop :=
  exists members,
    sobj = JObj members /\
    match dict_get "score" members with
    | Some sc => exists f, py_float sc = Ok f /\ sugg_score sg = PyFloat f
    | None => sugg_score sg = PyInt 0%Z
    end.

(** The classes of the exceptions [from_json_string] can raise. *)
Definition parse_error (e : exn) : Prop :=
  In (exn_type e) ["ValueError"; "KeyError"; "TypeError"; "AttributeError"; "OverflowError"].

End Codec.

(** ** The decoding engine *)

(** [OpenNMTDecoder], as far as the controller uses it: the size of the pool
    and [translate], which returns the target tokens or raises. *)
Class Engine {RT : Runtime} : Type := {
  number_of_threads : nat;
  translate : list string -> list (Suggestion pyfloat) -> result (list string)
}.

(** ** The threads *)

Definition POISON_PILL : string := "__POISON_PILL__".

Section Threads.
Context {RT : Runtime} {EN : Engine}.

(** What a queue can hold: [Queue.Queue] is untyped, and the program puts
    requests, responses and the string [POISON_PILL] on its queues. *)
Inductive pyobj : Type :=
| PyStr (s : string)
| PyRequest (r : TranslationRequest pyfloat)
| PyResponse (r : TranslationResponse).

(** [isinstance(x, basestring)] *)
Definition isinstance_basestring (x : pyobj) : bool :=
  match x with
  | PyStr _ => true
  | _ => false
  end.

(** [isinstance(x, basestring) and x == MainController.POISON_PILL] *)
Definition is_poison_pill (x : pyobj) : bool :=
  isinstance_basestring x &&
  match x with
  | PyStr s => String.eqb s POISON_PILL
  | _ => false
  end.

(** Lines 75-80 of [ExecutorThread.run] for a request: the translation, or
    whatever [translate] raised, caught by [except BaseException] and turned
    into a response.  (The [print] of line 78 goes to the diagnostics stream,
    since [__init__] has replaced [sys.stdout].) *)
Definition respond (request : TranslationRequest pyfloat) : TranslationResponse :=
  match translate (req_source request) (req_suggestions request) with
  | Ok translation => TranslationResponse_init (req_id request) (Some translation) None
  | Raise e => TranslationResponse_init (req_id request) None (Some e)
  end.

(** The same lines on any object [request] taken from the queue.  An object
    without [source] raises AttributeError inside the [try]; the handler then
    reads [request.id], which a response has and a string has not: in the
    second case the exception leaves [run]. *)
Definition handle (request : pyobj) : result TranslationResponse :=
  match request with
  | PyRequest r => Ok (respond r)
  | PyResponse r =>
      Ok (TranslationResponse_init (resp_id r) None
            (Some (AttributeError "instance has no attribute 'source'")))
  | PyStr _ => Raise (AttributeError "object has no attribute 'id'")
  end.

(** Control points of an [ExecutorThread]. *)
Inductive wstate : Type :=
| WNotStarted
| WIdle                     (* at [self._in.get()] *)
| WBusy (request : pyobj)   (* between the [get] and the [put] *)
| WExited                   (* left the loop by [break] *)
| WCrashed (e : exn).       (* an exception left [run] *)

(** Control points of the [PrinterThread]. *)
Inductive pstate : Type :=
| PNotStarted
| PWaiting                  (* at [self._q.get()] *)
| PExited
| PCrashed (e : exn).

(** Control points of [_close]. *)
Inductive close_pc : Type :=
| ClearIn
| ClearOut
| PutIn (k : nat)           (* [for _ in self._workers], at index k *)
| PutOut
| JoinWorker (k : nat)      (* [for worker in self._workers], at index k *)
| JoinPrinter.

(** Control points of [serve_forever].  [CClose pc pend] is inside the
    [finally] clause; [pend] is the exception that left the [try] block and is
    raised again when [_close] returns. *)
Inductive cstate : Type :=
| CStartPrinter
| CStartWorker (k : nat)    (* [for worker in self._workers], at index k *)
| CServe                    (* at [sys.stdin.readline()] *)
| CClose (pc : close_pc) (pend : option exn)
| CStopped (outcome : option exn).

(** What [sys.stdin.readline()] does next: it returns a line, or the
    interrupt signal arrives while it blocks.  An exhausted list is the end of
    the stream. *)
Inductive read_event : Type :=
| RLine (line : string)
| RInterrupt.

Inductive tid : Type :=
| TMain
| TWorker (i : nat)
| TPrinter.

(** The history of atomic actions, kept beside the state to state orderings. *)
Inductive event : Type :=
| EvStartPrinter
| EvStartWorker (i : nat)
| EvEnqueue (r : TranslationRequest pyfloat)
| EvParseError (e : exn)
| EvClearIn
| EvClearOut
| EvPillIn
| EvPillOut
| EvJoinWorker (i : nat)
| EvJoinPrinter
| EvDequeue (i : nat) (request : pyobj)
| EvRespond (i : nat) (r : TranslationResponse)
| EvWorkerExit (i : nat)
| EvWorkerCrash (i : nat)
| EvWrite (r : TranslationResponse)
| EvPrinterExit
| EvPrinterCrash.

Record state : Type := mkState {
  ctl : cstate;
  workers : list wstate;      (* self._workers *)
  printer : pstate;           (* self._printer *)
  inq : list pyobj;           (* self._in, front first *)
  outq : list pyobj;          (* self._out, front first *)
  stdin : list read_event;
  stdout : list string;       (* the writes to self._stdout, oldest first *)
  log : list event            (* oldest first *)
}.

Definition with_ctl (c : cstate) (s : state) : state :=
  mkState c (workers s) (printer s) (inq s) (outq s) (stdin s) (stdout s) (log s).
Definition with_workers (ws : list wstate) (s : state) : state :=
  mkState (ctl s) ws (printer s) (inq s) (outq s) (stdin s) (stdout s) (log s).
Definition with_printer (p : pstate) (s : state) : state :=
  mkState (ctl s) (workers s) p (inq s) (outq s) (stdin s) (stdout s) (log s).
Definition with_inq (q : list pyobj) (s : state) : state :=
  mkState (ctl s) (workers s) (printer s) q (outq s) (stdin s) (stdout s) (log s).
Definition with_outq (q : list pyobj) (s : state) : state :=
  mkState (ctl s) (workers s) (printer s) (inq s) q (stdin s) (stdout s) (log s).
Definition with_stdin (i : list read_event) (s : state) : state :=
  mkState (ctl s) (workers s) (printer s) (inq s) (outq s) i (stdout s) (log s).
Definition with_stdout (o : list string) (s : state) : state :=
  mkState (ctl s) (workers s) (printer s) (inq s) (outq s) (stdin s) o (log s).
Definition emit (e : event) (s : state) : state :=
  mkState (ctl s) (workers s) (printer s) (inq s) (outq s) (stdin s) (stdout s)
          (log s ++ [e]).

(** [MainController.__init__]: empty queues, one thread object per engine
    thread, none of them started. *)
Definition init (input : list read_event) : state :=
  {| ctl := CStartPrinter;
     workers := replicate number_of_threads WNotStarted;
     printer := PNotStarted;
     inq := [];
     outq := [];
     stdin := input;
     stdout := [];
     log := [] |}.

(** An exception leaves the [try] block of [serve_forever]: the handler
    swallows a KeyboardInterrupt, and the [finally] clause runs [_close]. *)
Definition leave_try (e : exn) (s : state) : state :=
  with_ctl (CClose ClearIn (if is_KeyboardInterrupt e then None else Some e)) s.

(** One atomic action of the main thread: [serve_forever] and [_close]. *)
Definition exec_main (s : state) : option state :=
  match ctl s with
  | CStartPrinter =>
      match printer s with
      | PNotStarted =>
          Some (emit EvStartPrinter (with_ctl (CStartWorker 0) (with_printer PWaiting s)))
      | _ => Some (leave_try (RuntimeError "threads can only be started once") s)
      end
  | CStartWorker k =>
      match workers s !! k with
      | None => Some (with_ctl CServe s)
      | Some WNotStarted =>
          Some (emit (EvStartWorker k)
                  (with_ctl (CStartWorker (S k)) (with_workers (<[k := WIdle]> (workers s)) s)))
      | Some _ => Some (leave_try (RuntimeError "threads can only be started once") s)
      end
  | CServe =>
      match stdin s with
      | [] => Some (with_ctl (CClose ClearIn None) s)
      | RInterrupt :: rest =>
          Some (leave_try (Exn "KeyboardInterrupt" "") (with_stdin rest s))
      | RLine line :: rest =>
          if String.eqb line "" then Some (with_ctl (CClose ClearIn None) (with_stdin rest s))
          else match from_json_string line with
               | Ok request =>
                   Some (emit (EvEnqueue request)
                           (with_inq (inq s ++ [PyRequest request]) (with_stdin rest s)))
               | Raise e => Some (emit (EvParseError e) (leave_try e (with_stdin rest s)))
               end
      end
  | CClose ClearIn pend =>
      Some (emit EvClearIn (with_ctl (CClose ClearOut pend) (with_inq [] s)))
  | CClose ClearOut pend =>
      Some (emit EvClearOut (with_ctl (CClose (PutIn 0) pend) (with_outq [] s)))
  | CClose (PutIn k) pend =>
      match workers s !! k with
      | Some _ =>
          Some (emit EvPillIn
                  (with_ctl (CClose (PutIn (S k)) pend)
                     (with_inq (inq s ++ [PyStr POISON_PILL]) s)))
      | None => Some (with_ctl (CClose PutOut pend) s)
      end
  | CClose PutOut pend =>
      Some (emit EvPillOut
              (with_ctl (CClose (JoinWorker 0) pend)
                 (with_outq (outq s ++ [PyStr POISON_PILL]) s)))
  | CClose (JoinWorker k) pend =>
      match workers s !! k with
      | None => Some (with_ctl (CClose JoinPrinter pend) s)
      | Some WExited | Some (WCrashed _) =>
          Some (emit (EvJoinWorker k) (with_ctl (CClose (JoinWorker (S k)) pend) s))
      | Some WNotStarted =>
          Some (with_ctl (CStopped (Some (RuntimeError "cannot join thread before it is started"))) s)
      | Some _ => None
      end
  | CClose JoinPrinter pend =>
      match printer s with
      | PExited | PCrashed _ => Some (emit EvJoinPrinter (with_ctl (CStopped pend) s))
      | PNotStarted =>
          Some (with_ctl (CStopped (Some (RuntimeError "cannot join thread before it is started"))) s)
      | PWaiting => None
      end
  | CStopped _ => None
  end.

(** One atomic action of worker [i]: the [get] of line 70 with the test of
    line 72, or the rest of the loop body with the [put] of line 82. *)
Definition exec_worker (i : nat) (s : state) : option state :=
  match workers s !! i with
  | Some WIdle =>
      match inq s with
      | [] => None
      | request :: rest =>
          if is_poison_pill request
          then Some (emit (EvWorkerExit i)
                       (with_workers (<[i := WExited]> (workers s)) (with_inq rest s)))
          else Some (emit (EvDequeue i request)
                       (with_workers (<[i := WBusy request]> (workers s)) (with_inq rest s)))
      end
  | Some (WBusy request) =>
      match handle request with
      | Ok response =>
          Some (emit (EvRespond i response)
                  (with_workers (<[i := WIdle]> (workers s))
                     (with_outq (outq s ++ [PyResponse response]) s)))
      | Raise e =>
          Some (emit (EvWorkerCrash i) (with_workers (<[i := WCrashed e]> (workers s)) s))
      end
  | _ => None
  end.

(** One iteration of [PrinterThread.run]: the [get], the test, and the two
    writes with the flush; only this thread touches the output stream. *)
Definition exec_printer (s : state) : option state :=
  match printer s with
  | PWaiting =>
      match outq s with
      | [] => None
      | response :: rest =>
          if is_poison_pill response
          then Some (emit EvPrinterExit (with_printer PExited (with_outq rest s)))
          else match response with
               | PyResponse r =>
                   Some (emit (EvWrite r)
                           (with_stdout (stdout s ++ [to_json_string r; newline]) (with_outq rest s)))
               | _ =>
                   Some (emit EvPrinterCrash
                           (with_printer
                              (PCrashed (AttributeError "no attribute 'to_json_string'"))
                              (with_outq rest s)))
               end
      end
  | _ => None
  end.

(** The next atomic action of thread [t]; [None] when the thread is blocked,
    not started or finished. *)
Definition exec (t : tid) (s : state) : option state :=
  match t with
  | TMain => exec_main s
  | TWorker i => exec_worker i s
  | TPrinter => exec_printer s
  end.

(** Run a schedule: the threads move in the order of the list. *)
Fixpoint run (sched : list tid) (s : state) : option state :=
  match sched with
  | [] => Some s
  | t :: rest =>
      match exec t s with
      | Some s' => run rest s'
      | None => None
      end
  end.

Definition reachable (input : list read_event) (s : state) : Prop :=
  exists sched, run sched (init input) = Some s.

End Threads.

(** ** Histories, and the vocabulary of the statements *)

Section Histories.
Context {RT : Runtime} {EN : Engine}.

Definition is_exited (w : wstate) : bool :=
  match w with
  | WExited => true
  | _ => false
  end.

Definition is_busy (w : wstate) : bool :=
  match w with
  | WBusy _ => true
  | _ => false
  end.

Definition is_started (w : wstate) : bool :=
  match w with
  | WNotStarted => false
  | _ => true
  end.

(** Number of workers that satisfy [p]. *)
Fixpoint count (p : wstate -> bool) (ws : list wstate) : nat :=
  match ws with
  | [] => 0
  | w :: rest => (if p w then 1 else 0) + count p rest
  end.

(** The actions of [_close]. *)
Definition is_close_event (e : event) : bool :=
  match e with
  | EvClearIn | EvClearOut | EvPillIn | EvPillOut | EvJoinWorker _ | EvJoinPrinter => true
  | _ => false
  end.





(** Every occurrence of [b] in [l] comes after an occurrence of [a]. *)
Definition precedes (a b : event) (l : list event) : Prop :=
  forall l1 l2, l = l1 ++ b :: l2 -> In a l1.

(** The whole of [_close] for a pool of [n] workers. *)
Definition close_sequence (n : nat) : list event :=
  [EvClearIn; EvClearOut] ++ replicate n EvPillIn ++ [EvPillOut]
    ++ map EvJoinWorker (seq 0 n) ++ [EvJoinPrinter].

(** The part of [_close] that lies behind control point [c]. *)
Definition close_done (n : nat) (c : cstate) : list event :=
  match c with
  | CStartPrinter | CStartWorker _ | CServe | CClose ClearIn _ => []
  | CClose ClearOut _ => [EvClearIn]
  | CClose (PutIn k) _ => [EvClearIn; EvClearOut] ++ replicate k EvPillIn
  | CClose PutOut _ => [EvClearIn; EvClearOut] ++ replicate n EvPillIn
  | CClose (JoinWorker k) _ =>
      [EvClearIn; EvClearOut] ++ replicate n EvPillIn ++ [EvPillOut]
        ++ map EvJoinWorker (seq 0 k)
  | CClose JoinPrinter _ =>
      [EvClearIn; EvClearOut] ++ replicate n EvPillIn ++ [EvPillOut]
        ++ map EvJoinWorker (seq 0 n)
  | CStopped _ => close_sequence n
  end.

(** A request or the marker; a response or the marker. *)
Definition request_or_pill (x : pyobj) : Prop :=
  match x with
  | PyRequest _ => True
  | PyStr s => s = POISON_PILL
  | PyResponse _ => False
  end.

Definition response_or_pill (x : pyobj) : Prop :=
  match x with
  | PyResponse _ => True
  | PyStr s => s = POISON_PILL
  | PyRequest _ => False
  end.

(** A worker that holds a request, if it holds anything, and has not died. *)
Definition worker_sound (w : wstate) : Prop :=
  match w with
  | WBusy (PyRequest _) => True
  | WBusy _ => False
  | WCrashed _ => False
  | _ => True
  end.

Definition printer_sound (p : pstate) : Prop :=
  match p with
  | PCrashed _ => False
  | _ => True
  end.

(** A line that parses as a JSON object with an integer-coercible "id" and a
    string "source". *)
Definition well_formed_line (line : string) : Prop :=
  exists members idv n src,
    json_loads line = Some (JObj members) /\
    dict_get "id" members = Some idv /\
    py_int idv = Ok n /\
    dict_get "source" members = Some (JStr src).

(** An upper bound on the number of atomic actions still to come. *)
Definition main_rank (n : nat) (c : cstate) (input : list read_event) : nat :=
  match c with
  | CStartPrinter => 7 * n + 10 + 5 * length input
  | CStartWorker k => 6 * n + 9 + 5 * length input + (n - k)
  | CServe => 6 * n + 8 + 5 * length input
  | CClose ClearIn _ => 6 * n + 7
  | CClose ClearOut _ => 6 * n + 6
  | CClose (PutIn k) _ => n + 5 + 5 * (n - k)
  | CClose PutOut _ => n + 4
  | CClose (JoinWorker k) _ => 2 + (n - k)
  | CClose JoinPrinter _ => 1
  | CStopped _ => 0
  end.

Definition measure (s : state) : nat :=
  main_rank (length (workers s)) (ctl s) (stdin s)
  + 4 * length (inq s) + 2 * count is_busy (workers s) + length (outq s).

(** The queues hold what their readers expect, and no thread has died. *)
Definition sound (s : state) : Prop :=
  Forall request_or_pill (inq s) /\
  Forall response_or_pill (outq s) /\
  Forall worker_sound (workers s) /\
  printer_sound (printer s).

(** Number of workers [serve_forever] has started at control point [c]. *)
Definition starts (n : nat) (c : cstate) : nat :=
  match c with
  | CStartPrinter => 0
  | CStartWorker k => k
  | _ => n
  end.

Definition is_pstarted (p : pstate) : bool :=
  match p with
  | PNotStarted => false
  | _ => true
  end.

Definition printer_started_at (c : cstate) : bool :=
  match c with
  | CStartPrinter => false
  | _ => true
  end.

(** The threads that have been started are those the main thread has passed. *)
Definition started_inv (s : state) : Prop :=
  is_pstarted (printer s) = printer_started_at (ctl s) /\
  forall j w, workers s !! j = Some w ->
              is_started w = (j <? starts (length (workers s)) (ctl s))%nat.

(** Number of markers [_close] has put on the request queue at control point
    [c]; [None] before the queue is cleared. *)
Definition pills_due (n : nat) (c : cstate) : option nat :=
  match c with
  | CStartPrinter | CStartWorker _ | CServe | CClose ClearIn _ => None
  | CClose ClearOut _ => Some 0
  | CClose (PutIn k) _ => Some k
  | _ => Some n
  end.

(** Before the clear the request queue holds no marker and no worker has left
    its loop; after it the queue holds markers only, one for each marker put
    that no worker has taken. *)
Definition inq_inv (s : state) : Prop :=
  match pills_due (length (workers s)) (ctl s) with
  | None =>
      Forall (fun x => is_poison_pill x = false) (inq s) /\
      count is_exited (workers s) = 0
  | Some k =>
      Forall (fun x => is_poison_pill x = true) (inq s) /\
      length (inq s) + count is_exited (workers s) = k /\
      k <= length (workers s)
  end.

Definition pill_out_sent (c : cstate) : bool :=
  match c with
  | CClose (JoinWorker _) _ | CClose JoinPrinter _ | CStopped _ => true
  | _ => false
  end.

(** Once the marker is on the response queue it stays there until the
    printer takes it. *)
Definition outq_inv (s : state) : Prop :=
  if pill_out_sent (ctl s)
  then printer s = PExited \/ Exists (fun x => is_poison_pill x = true) (outq s)
  else Forall (fun x => is_poison_pill x = false) (outq s) /\ printer s <> PExited.

(** The threads the main thread has joined have left their loops. *)
Definition joined_inv (s : state) : Prop :=
  match ctl s with
  | CClose (JoinWorker k) _ =>
      k <= length (workers s) /\ forall j, j < k -> workers s !! j = Some WExited
  | CClose JoinPrinter _ => forall j w, workers s !! j = Some w -> w = WExited
  | CStopped _ => (forall j w, workers s !! j = Some w -> w = WExited) /\ printer s = PExited
  | _ => True
  end.



(** The main thread puts a request on the queue. *)
Definition is_enqueue_event (e : event) : bool :=
  match e with
  | EvEnqueue _ => true
  | _ => false
  end.

End Histories.

(** ** A small runtime and three engines, for the examples *)

Module Toy.

(** The double quote character, to write JSON text. *)
Definition dq : string := String (ascii_of_nat 34) EmptyString.

Definition line_abc : string :=
  "{" ++ dq ++ "id" ++ dq ++ ":1," ++ dq ++ "source" ++ dq ++ ":" ++ dq ++ "a b c" ++ dq ++ "}".

Definition line_sugg : string :=
  "{" ++ dq ++ "id" ++ dq ++ ":2," ++ dq ++ "source" ++ dq ++ ":" ++ dq ++ "hello" ++ dq ++ ","
      ++ dq ++ "suggestions" ++ dq ++ ":[{" ++ dq ++ "source" ++ dq ++ ":" ++ dq ++ "A" ++ dq ++ ","
      ++ dq ++ "target" ++ dq ++ ":" ++ dq ++ "a" ++ dq ++ ","
      ++ dq ++ "score" ++ dq ++ ":" ++ dq ++ "0.1" ++ dq ++ "},{"
      ++ dq ++ "source" ++ dq ++ ":" ++ dq ++ "x" ++ dq ++ ","
      ++ dq ++ "target" ++ dq ++ ":" ++ dq ++ "y" ++ dq ++ "}]}".

Definition line_bad : string := "not json".

(** Floats are counted in thousandths. *)
Definition loads (s : string) : option (json Z) :=
  if String.eqb s line_abc
  then Some (JObj [("id", JInt 1%Z); ("source", JStr "a b c")])
  else if String.eqb s line_sugg
  then Some (JObj [("id", JInt 2%Z); ("source", JStr "hello");
                   ("suggestions",
                    JArr [JObj [("source", JStr "A"); ("target", JStr "a"); ("score", JStr "0.1")];
                          JObj [("source", JStr "x"); ("target", JStr "y")]])])
  else None.

#[export] Instance runtime : Runtime := {|
  pyfloat := Z;
  json_loads := loads;
  json_dumps := fun _ => "<json>";
  int_of_string := fun _ => None;
  float_of_string := fun s => if String.eqb s "0.1" then Some 100%Z else None;
  float_of_Z := fun n => Some (1000 * n)%Z;
  float_is_nan := fun _ => false;
  float_is_inf := fun _ => false;
  float_trunc := fun f => Z.quot f 1000
|}.

(** An engine with one thread that returns its source tokens. *)
Definition identity_engine : Engine := {|
  number_of_threads := 1;
  translate := fun source _ => Ok source
|}.

(** An engine with one thread that always raises. *)
Definition failing_engine : Engine := {|
  number_of_threads := 1;
  translate := fun _ _ => Raise (Exn "RuntimeError" "out of memory")
|}.

(** An engine with one thread that returns no token at all. *)
Definition silent_engine : Engine := {|
  number_of_threads := 1;
  translate := fun _ _ => Ok []
|}.

Definition request_abc : TranslationRequest (@pyfloat runtime) :=
  mkTranslationRequest 1%Z ["a"; "b"; "c"] [].

Definition response_abc : TranslationResponse :=
  mkTranslationResponse 1%Z (Some ["a"; "b"; "c"]) None None.


(** The same, but the input ends while the worker is at work, and the
    printer takes its marker before the worker answers. *)
Definition sched_late : list tid :=
  [TMain; TMain; TMain; TMain;
   TWorker 0;
   TMain; TMain; TMain;
   TMain; TMain; TMain;
   TPrinter;
   TWorker 0; TWorker 0;
   TMain; TMain; TMain].

(** No input at all: the threads are started and shut down. *)
Definition sched_idle : list tid :=
  [TMain; TMain; TMain; TMain; TMain; TMain; TMain; TMain; TMain;
   TWorker 0; TPrinter; TMain; TMain; TMain].

(** The main thread up to the point where both markers are on the queues. *)
Definition sched_markers : list tid :=
  [TMain; TMain; TMain; TMain; TMain; TMain; TMain; TMain; TMain].

(** The normal course: the request is answered and printed before the input
    ends. *)
Definition sched_served : list tid :=
  [TMain; TMain; TMain; TMain;
   TWorker 0; TWorker 0; TPrinter;
   TMain; TMain; TMain; TMain; TMain; TMain;
   TWorker 0; TPrinter;
   TMain; TMain; TMain].

(** The state a schedule leads to (the first state when a thread of the
    schedule cannot move). *)
Definition state_after (engine : Engine) (sched : list tid) (input : list read_event) : state :=
  match @run runtime engine sched (@init runtime engine input) with
  | Some s => s
  | None => @init runtime engine input
  end.


Definition final_late : state :=
  Eval vm_compute in state_after identity_engine sched_late [RLine line_abc].

Definition final_idle : state :=
  Eval vm_compute in state_after identity_engine sched_idle [].

Definition state_markers : state :=
  Eval vm_compute in state_after identity_engine sched_markers [].

Definition final_served : state :=
  Eval vm_compute in state_after identity_engine sched_served [RLine line_abc].

(** The worker has taken the request and not yet answered. *)
Definition state_busy : state :=
  Eval vm_compute in
    state_after identity_engine [TMain; TMain; TMain; TMain; TWorker 0] [RLine line_abc].

(** The main thread is about to read a line that is not JSON. *)
Definition state_before_bad_line : state :=
  Eval vm_compute in
    state_after identity_engine [TMain; TMain; TMain] [RLine line_bad; RLine line_abc].

End Toy.

(** ** More vocabulary: tokens, and what the log says was done *)

(** Number of occurrences of [c] in [s]. *)
Fixpoint occurrences (c : ascii) (s : string) : nat :=
  match s with
  | EmptyString => 0
  | String c' rest => (if Ascii.eqb c' c then 1 else 0) + occurrences c rest
  end.

Section Accounting.
Context {RT : Runtime} {EN : Engine}.

(** The requests on a queue, the responses on a queue, and the requests the
    workers are at work on. *)
Definition requests_of (q : list pyobj) : list (TranslationRequest pyfloat) :=
  flat_map (fun x => match x with PyRequest r => [r] | _ => [] end) q.

Definition responses_of (q : list pyobj) : list TranslationResponse :=
  flat_map (fun x => match x with PyResponse r => [r] | _ => [] end) q.

Definition busy_requests (ws : list wstate) : list (TranslationRequest pyfloat) :=
  flat_map (fun w => match w with WBusy (PyRequest r) => [r] | _ => [] end) ws.

(** What the log says: the requests put on the request queue, the requests
    taken by the workers, the responses put on the response queue, the
    responses written, the exceptions of [from_json_string]; each list from
    the oldest to the newest. *)
Definition enqueued (l : list event) : list (TranslationRequest pyfloat) :=
  flat_map (fun e => match e with EvEnqueue r => [r] | _ => [] end) l.

Definition dequeued (l : list event) : list (TranslationRequest pyfloat) :=
  flat_map (fun e => match e with EvDequeue _ (PyRequest r) => [r] | _ => [] end) l.

Definition responded (l : list event) : list TranslationResponse :=
  flat_map (fun e => match e with EvRespond _ r => [r] | _ => [] end) l.

Definition written (l : list event) : list TranslationResponse :=
  flat_map (fun e => match e with EvWrite r => [r] | _ => [] end) l.

Definition raised (l : list event) : list exn :=
  flat_map (fun e => match e with EvParseError x => [x] | _ => [] end) l.

(** The read loop of [serve_forever] on its own (lines 122-128): the requests
    it puts on the queue, up to the end of the stream, an interrupt, or the
    first line that [from_json_string] rejects. *)
Fixpoint accepted (input : list read_event) : list (TranslationRequest pyfloat) :=
  match input with
  | [] => []
  | RInterrupt :: _ => []
  | RLine line :: rest =>
      if String.eqb line "" then []
      else match from_json_string line with
           | Ok request => request :: accepted rest
           | Raise _ => []
           end
  end.

(** The same loop: the exception that ends it, if one does. *)
Fixpoint first_error (input : list read_event) : option exn :=
  match input with
  | [] => None
  | RInterrupt :: _ => None
  | RLine line :: rest =>
      if String.eqb line "" then None
      else match from_json_string line with
           | Ok _ => first_error rest
           | Raise e => Some e
           end
  end.

(** The main thread is in the [try] block of [serve_forever]. *)
Definition in_try (c : cstate) : bool :=
  match c with
  | CStartPrinter | CStartWorker _ | CServe => true
  | _ => false
  end.

(** The exception that waits for the end of [_close], or that
    [serve_forever] has raised. *)
Definition pending_exn (c : cstate) : option exn :=
  match c with
  | CClose _ pend => pend
  | CStopped outcome => outcome
  | _ => None
  end.

(** [_close] has cleared the response queue. *)
Definition out_cleared (c : cstate) : bool :=
  match c with
  | CStartPrinter | CStartWorker _ | CServe | CClose ClearIn _ | CClose ClearOut _ => false
  | _ => true
  end.

(** The lines the printer has written for the responses [rs]. *)
Definition lines_of (rs : list TranslationResponse) : list string :=
  flat_map (fun r => [to_json_string r; newline]) rs.

(** The starts of threads, and what lies behind control point [c]. *)
Definition is_start_event (e : event) : bool :=
  match e with
  | EvStartPrinter | EvStartWorker _ => true
  | _ => false
  end.

Definition start_done (n : nat) (c : cstate) : list event :=
  match c with
  | CStartPrinter => []
  | CStartWorker k => EvStartPrinter :: map EvStartWorker (seq 0 k)
  | _ => EvStartPrinter :: map EvStartWorker (seq 0 n)
  end.

(** The parts of the bookkeeping that hold in every state. *)
Definition enqueued_inv (input : list read_event) (s : state) : Prop :=
  enqueued (log s) ++ (if in_try (ctl s) then accepted (stdin s) else [])
  = accepted input.

Definition dequeued_inv (s : state) : Prop :=
  exists dropped,
    enqueued (log s) = dequeued (log s) ++ requests_of (inq s) ++ dropped /\
    (pills_due (length (workers s)) (ctl s) = None -> dropped = []).

Definition working_inv (s : state) : Prop :=
  responded (log s) ++ (respond <$> busy_requests (workers s))
  ≡ₚ respond <$> dequeued (log s).

Definition written_inv (s : state) : Prop :=
  (written (log s) ++ responses_of (outq s)) `sublist_of` responded (log s) /\
  (out_cleared (ctl s) = false ->
   written (log s) ++ responses_of (outq s) = responded (log s)).

Definition outcome_inv (input : list read_event) (s : state) : Prop :=
  (if in_try (ctl s) then first_error (stdin s) else pending_exn (ctl s))
  = first_error input /\
  raised (log s) = match pending_exn (ctl s) with
                   | Some e => [e]
                   | None => []
                   end.

(** A request goes on the request queue, or a worker takes something from it. *)
Definition is_dispatch_event (e : event) : bool :=
  match e with
  | EvEnqueue _ | EvDequeue _ _ => true
  | _ => false
  end.

(** Nothing is dispatched after the request queue is cleared, and nothing is
    written after the printer has taken its marker. *)
Definition after_clear_inv (s : state) : Prop :=
  forall l1 l2,
    log s = l1 ++ EvClearIn :: l2 -> Forall (fun e => is_dispatch_event e = false) l2.

Definition after_printer_exit_inv (s : state) : Prop :=
  forall l1 l2, log s = l1 ++ EvPrinterExit :: l2 -> written l2 = [].

(** The main thread is still starting the threads. *)
Definition in_start (c : cstate) : bool :=
  match c with
  | CStartPrinter | CStartWorker _ => true
  | _ => false
  end.

(** While the threads are started nothing else happens. *)
Definition starting_inv (input : list read_event) (s : state) : Prop :=
  in_start (ctl s) = true ->
  stdin s = input /\ inq s = [] /\
  List.filter is_dispatch_event (log s) = [] /\
  Forall (fun w => is_busy w = false) (workers s).






End Accounting.

(** ** The process: [run_main] *)

(** What [run_main] calls outside the module: [parser.parse_args()], which
    gives [args.model] or leaves the process, and the constructor
    [OpenNMTDecoder(args.model)] of the [nmt.opennmt] package, which gives
    the engine or raises. *)
Class Host {RT : Runtime} : Type := {
  parse_args : list string -> result string;
  load_decoder : string -> result Engine
}.

Section Process.
Context {RT : Runtime} {HO : Host}.

(** Control points of [run_main] (lines 149-161).  In [PServe] the main
    thread is inside [controller.serve_forever()]; [PClosed] is reached by
    [decoder.close()] in the [finally] clause, with what [serve_forever]
    raised; [PFailed] is an exception that leaves [run_main] before the
    [try] block is entered. *)
Inductive process : Type :=
| PArgs
| PLoad (model : string)
| PServe (engine : Engine) (s : state)
| PClosed (engine : Engine) (s : state) (outcome : option exn)
| PFailed (e : exn).

(** One atomic action of a thread of the process.  The main thread goes on
    in [run_main] when [serve_forever] has ended; the other threads are not
    stopped by the end of the main thread. *)
Definition pexec (argv : list string) (input : list read_event) (t : tid) (p : process)
    : option process :=
  match p with
  | PArgs =>
      match t with
      | TMain =>
          match parse_args argv with
          | Ok model => Some (PLoad model)
          | Raise e => Some (PFailed e)
          end
      | _ => None
      end
  | PLoad model =>
      match t with
      | TMain =>
          match load_decoder model with
          | Ok engine => Some (PServe engine (@init RT engine input))
          | Raise e => Some (PFailed e)
          end
      | _ => None
      end
  | PServe engine s =>
      match t, ctl s with
      | TMain, CStopped outcome => Some (PClosed engine s outcome)
      | _, _ =>
          match @exec RT engine t s with
          | Some s' => Some (PServe engine s')
          | None => None
          end
      end
  | PClosed engine s outcome =>
      match t with
      | TMain => None
      | _ =>
          match @exec RT engine t s with
          | Some s' => Some (PClosed engine s' outcome)
          | None => None
          end
      end
  | PFailed _ => None
  end.

Fixpoint prun (argv : list string) (input : list read_event) (sched : list tid)
    (p : process) : option process :=
  match sched with
  | [] => Some p
  | t :: rest =>
      match pexec argv input t p with
      | Some p' => prun argv input rest p'
      | None => None
      end
  end.

(** What holds of the process at each control point. *)
Definition process_inv (argv : list string) (input : list read_event) (p : process) : Prop :=
  match p with
  | PArgs => True
  | PLoad model => parse_args argv = Ok model
  | PServe engine s =>
      (exists model, parse_args argv = Ok model /\ load_decoder model = Ok engine) /\
      @reachable RT engine input s
  | PClosed engine s outcome =>
      (exists model, parse_args argv = Ok model /\ load_decoder model = Ok engine) /\
      @reachable RT engine input s /\ ctl s = CStopped outcome
  | PFailed e =>
      parse_args argv = Raise e \/
      exists model, parse_args argv = Ok model /\ load_decoder model = Raise e
  end.

End Process.

(** ** A host and a second runtime, for the examples *)

Module Demo.

(** A line whose "suggestions" is the empty string. *)
Definition line_empty_suggestions : string := "suggestions as an empty string".

Definition loads (s : string) : option (json Z) :=
  if String.eqb s line_empty_suggestions
  then Some (JObj [("id", JInt 3%Z); ("source", JStr "x"); ("suggestions", JStr "")])
  else None.

Definition runtime : Runtime := {|
  pyfloat := Z;
  json_loads := loads;
  json_dumps := fun _ => "<json>";
  int_of_string := fun _ => None;
  float_of_string := fun _ => None;
  float_of_Z := fun n => Some (1000 * n)%Z;
  float_is_nan := fun _ => false;
  float_is_inf := fun _ => false;
  float_trunc := fun f => Z.quot f 1000
|}.

(** [run_main] on the small runtime: exactly one argument is a model, and
    the only model that loads is "model.pt", with the identity engine. *)
Definition host : @Host Toy.runtime := {|
  parse_args := fun argv =>
    match argv with
    | [model] => Ok model
    | _ => Raise (Exn "SystemExit" "2")
    end;
  load_decoder := fun model =>
    if String.eqb model "model.pt" then Ok Toy.identity_engine
    else Raise (Exn "IOError" "No such file or directory")
|}.


(** An engine with two threads that returns its source tokens. *)
Definition two_workers : @Engine Toy.runtime := {|
  number_of_threads := 2;
  translate := fun source _ => Ok source
|}.

(** Two lines, two workers: the second worker answers first. *)
Definition sched_overtake : list tid :=
  [TMain; TMain; TMain; TMain;          (* start the printer and both workers *)
   TMain; TMain;                        (* read both lines *)
   TWorker 0; TWorker 1;                (* each worker takes a request *)
   TWorker 1; TWorker 0;                (* the second one answers first *)
   TPrinter; TPrinter].

End Demo.

(** * Properties *)

(** ** The codec *)

Lemma split_nonempty (sep : ascii) (s : string) : split sep s <> [].
Proof.
  destruct s as [|c rest]; simpl; [discriminate|].
  destruct (Ascii.eqb c sep); [discriminate|].
  destruct (split sep rest); discriminate.
Qed.

Lemma join_cons_nonempty (sep tok : string) (toks : list string) :
  toks <> [] -> join sep (tok :: toks) = (tok ++ sep ++ join sep toks)%string.
Proof. destruct toks; [congruence | reflexivity]. Qed.

Lemma join_cons_char (sep : string) (c : ascii) (tok : string) (toks : list string) :
  join sep (String c tok :: toks) = String c (join sep (tok :: toks)).
Proof. destruct toks; reflexivity. Qed.

(** Joining the tokens of a string gives the string back. *)
Lemma join_split (s : string) : join " " (split space s) = s.
Proof.
  induction s as [|c rest IH]; [reflexivity|].
  cbn [split]. destruct (Ascii.eqb_spec c space) as [->|Hne].
  - rewrite join_cons_nonempty by apply split_nonempty.
    rewrite IH. reflexivity.
  - pose proof (split_nonempty space rest) as Hs.
    destruct (split space rest) as [|tok toks]; [congruence|].
    rewrite join_cons_char, IH. reflexivity.
Qed.

Section CodecProperties.
Context {RT : Runtime}.

Lemma parse_suggestion_score (sobj : json pyfloat) (sg : Suggestion pyfloat) :
  parse_suggestion sobj = Ok sg -> score_parsed sobj sg.
Proof.
  unfold parse_suggestion, score_parsed. intros H.
  destruct sobj as [| | | | |items|members]; try discriminate.
  exists members. split; [reflexivity|].
  simpl in H.
  destruct (dict_get "source" members) as [src|]; [|discriminate]. simpl in H.
  destruct (py_split src) as [ssrc|]; [|discriminate]. simpl in H.
  destruct (dict_get "target" members) as [tgt|]; [|discriminate]. simpl in H.
  destruct (py_split tgt) as [stgt|]; [|discriminate]. simpl in H.
  destruct (dict_get "score" members) as [sc|].
  - destruct (py_float sc) as [f|]; [|discriminate]. simpl in H.
    inversion H; subst. exists f. split; reflexivity.
  - simpl in H. inversion H; subst. reflexivity.
Qed.

Lemma parse_suggestions_scores (sobjs : list (json pyfloat)) :
  forall sgs, parse_suggestions sobjs = Ok sgs -> Forall2 score_parsed sobjs sgs.
Proof.
  induction sobjs as [|sobj rest IH]; intros sgs H; simpl in H.
  - inversion H; subst. constructor.
  - destruct (parse_suggestion sobj) as [sg|] eqn:Hsg; [|discriminate]. simpl in H.
    destruct (parse_suggestions rest) as [sgs'|]; [|discriminate]. simpl in H.
    inversion H; subst. constructor.
    + apply parse_suggestion_score. exact Hsg.
    + apply IH. reflexivity.
Qed.

(** C7: every suggestion of a parsed line has the score [float(score)] when
    its object has the key, and the integer 0 when it has not; and an object
    with only "source" and "target" strings parses, with score 0. *)
Theorem suggestion_score_default (line : string) (members : list (string * json pyfloat))
    (sobjs : list (json pyfloat)) (request : TranslationRequest pyfloat) :
  json_loads line = Some (JObj members) ->
  dict_get "suggestions" members = Some (JArr sobjs) ->
  from_json_string line = Ok request ->
  Forall2 score_parsed sobjs (req_suggestions request) /\
  (forall x y : string,
      parse_suggestion (JObj [("source", JStr x); ("target", JStr y)])
      = Ok (mkSuggestion (split space x) (split space y) (PyInt 0%Z))).
Proof.
  intros Hloads Hsugg Hparse. split; [|reflexivity].
  unfold from_json_string in Hparse. rewrite Hloads in Hparse.
  unfold from_json_obj in Hparse. simpl in Hparse.
  destruct (dict_get "id" members) as [idv|]; [|discriminate]. simpl in Hparse.
  destruct (py_int idv) as [n|]; [|discriminate]. simpl in Hparse.
  destruct (dict_get "source" members) as [srcv|]; [|discriminate]. simpl in Hparse.
  destruct (py_split srcv) as [src|]; [|discriminate]. simpl in Hparse.
  rewrite Hsugg in Hparse. simpl in Hparse.
  destruct (parse_suggestions sobjs) as [sgs|] eqn:Hsgs; [|discriminate].
  simpl in Hparse. inversion Hparse; subst. simpl.
  apply parse_suggestions_scores. exact Hsgs.
Qed.

(** C6: a failed response serializes to an object with "id" and "error"; the
    error has "type", and "message" is left out exactly when the text of the
    exception is empty. *)
Theorem error_response_json (_id : Z) (e : exn) :
  let error := ("type", JStr (exn_type e)) ::
               (if String.eqb (exn_str e) "" then [] else [("message", JStr (exn_str e))]) in
  to_json_obj (TranslationResponse_init _id None (Some e))
  = JObj [("id", JInt _id); ("error", JObj error)] /\
  (dict_get "message" error = None <-> exn_str e = "").
Proof.
  unfold to_json_obj, TranslationResponse_init. simpl.
  destruct (String.eqb_spec (exn_str e) "") as [Heq|Hne]; simpl.
  - split; [reflexivity|]. split; auto.
  - split; [reflexivity|]. split; [discriminate | contradiction].
Qed.

Lemma parse_error_not_interrupt (e : exn) : parse_error e -> is_KeyboardInterrupt e = false.
Proof.
  unfold parse_error, is_KeyboardInterrupt. simpl.
  intros [H|[H|[H|[H|[H|[]]]]]]; rewrite <- H; reflexivity.
Qed.

(** Case analysis on a [bind]. *)
Lemma bind_raise {A B : Type} (r : result A) (k : A -> result B) (e : exn) :
  bind r k = Raise e -> r = Raise e \/ exists a, r = Ok a /\ k a = Raise e.
Proof. destruct r as [a|e']; simpl; intros H; [right; eauto | left; congruence]. Qed.

Ltac parse_error_tac :=
  unfold parse_error; simpl; tauto.

Lemma getitem_error (obj : json pyfloat) (key : string) (e : exn) :
  In key ["id"; "source"; "target"] -> getitem obj key = Raise e -> parse_error e.
Proof.
  intros Hk H. destruct obj; simpl in H; try (inversion H; subst; parse_error_tac).
  destruct (dict_get key members); inversion H; subst. parse_error_tac.
Qed.

Lemma py_int_error (v : json pyfloat) (e : exn) : py_int v = Raise e -> parse_error e.
Proof.
  destruct v; simpl; intros H; try (inversion H; subst; parse_error_tac).
  - destruct (float_is_nan f); [inversion H; subst; parse_error_tac|].
    destruct (float_is_inf f); inversion H; subst; parse_error_tac.
  - destruct (int_of_string s); inversion H; subst; parse_error_tac.
Qed.

Lemma py_float_error (v : json pyfloat) (e : exn) : py_float v = Raise e -> parse_error e.
Proof.
  destruct v; simpl; intros H; try (inversion H; subst; parse_error_tac).
  - destruct (float_of_Z _); inversion H; subst; parse_error_tac.
  - destruct (float_of_Z _); inversion H; subst; parse_error_tac.
  - destruct (float_of_string s); inversion H; subst; parse_error_tac.
Qed.

Lemma py_split_error (v : json pyfloat) (e : exn) : py_split v = Raise e -> parse_error e.
Proof. destruct v; simpl; intros H; inversion H; subst; parse_error_tac. Qed.

Lemma py_iter_error (v : json pyfloat) (e : exn) : py_iter v = Raise e -> parse_error e.
Proof. destruct v; simpl; intros H; inversion H; subst; parse_error_tac. Qed.

Lemma parse_suggestion_error (sobj : json pyfloat) (e : exn) :
  parse_suggestion sobj = Raise e -> parse_error e.
Proof.
  unfold parse_suggestion. intros H.
  apply bind_raise in H as [H|(src & _ & H)];
    [eapply getitem_error; [|exact H]; simpl; tauto|].
  apply bind_raise in H as [H|(ssrc & _ & H)]; [eapply py_split_error; exact H|].
  apply bind_raise in H as [H|(tgt & _ & H)];
    [eapply getitem_error; [|exact H]; simpl; tauto|].
  apply bind_raise in H as [H|(stgt & _ & H)]; [eapply py_split_error; exact H|].
  apply bind_raise in H as [H|(sc & _ & H)]; [|discriminate].
  destruct sobj; try (inversion H; subst; parse_error_tac).
  destruct (dict_get "score" members) as [v|]; [|discriminate].
  apply bind_raise in H as [H|(f & _ & H)]; [eapply py_float_error; exact H | discriminate].
Qed.

Lemma parse_suggestions_error (sobjs : list (json pyfloat)) (e : exn) :
  parse_suggestions sobjs = Raise e -> parse_error e.
Proof.
  induction sobjs as [|sobj rest IH]; simpl; intros H; [discriminate|].
  apply bind_raise in H as [H|(sg & _ & H)]; [eapply parse_suggestion_error; exact H|].
  apply bind_raise in H as [H|(sgs & _ & H)]; [auto | discriminate].
Qed.

(** Whatever [from_json_string] raises, [except KeyboardInterrupt] lets it pass. *)
Lemma from_json_string_error (line : string) (e : exn) :
  from_json_string line = Raise e -> parse_error e.
Proof.
  unfold from_json_string. destruct (json_loads line) as [obj|];
    [|intros H; inversion H; subst; parse_error_tac].
  unfold from_json_obj. intros H.
  apply bind_raise in H as [H|(idv & _ & H)];
    [eapply getitem_error; [|exact H]; simpl; tauto|].
  apply bind_raise in H as [H|(n & _ & H)]; [eapply py_int_error; exact H|].
  apply bind_raise in H as [H|(srcv & _ & H)];
    [eapply getitem_error; [|exact H]; simpl; tauto|].
  apply bind_raise in H as [H|(src & _ & H)]; [eapply py_split_error; exact H|].
  apply bind_raise in H as [H|(sgs & _ & H)]; [|discriminate].
  destruct obj; try (inversion H; subst; parse_error_tac).
  destruct (dict_get "suggestions" members) as [sv|]; [|discriminate].
  apply bind_raise in H as [H|(sobjs & _ & H)];
    [eapply py_iter_error; exact H | eapply parse_suggestions_error; exact H].
Qed.

(** A line that is not well formed makes [from_json_string] raise. *)
Lemma malformed_line_raises (line : string) :
  ~ well_formed_line line -> exists e, from_json_string line = Raise e.
Proof.
  intros Hbad. unfold from_json_string.
  destruct (json_loads line) as [obj|] eqn:Hloads; [|eauto].
  unfold from_json_obj.
  destruct obj as [| | | | | |members]; simpl; eauto.
  destruct (dict_get "id" members) as [idv|] eqn:Hid; simpl; eauto.
  destruct (py_int idv) as [n|] eqn:Hint; simpl; eauto.
  destruct (dict_get "source" members) as [srcv|] eqn:Hsrc; simpl; eauto.
  destruct srcv as [| | | |src| |]; simpl; eauto.
  exfalso. apply Hbad. exists members, idv, n, src. auto.
Qed.

End CodecProperties.

(** ** Executions *)

Section Executions.
Context {RT : Runtime} {EN : Engine}.

Lemma run_app (sched1 sched2 : list tid) (s : state) :
  run (sched1 ++ sched2) s
  = match run sched1 s with
    | Some s' => run sched2 s'
    | None => None
    end.
Proof.
  revert s. induction sched1 as [|t sched1 IH]; intros s; simpl; [reflexivity|].
  destruct (exec t s); [apply IH | reflexivity].
Qed.

Lemma reachable_init (input : list read_event) : reachable input (init input).
Proof. exists []. reflexivity. Qed.

Lemma reachable_run (input : list read_event) (sched : list tid) (s s' : state) :
  reachable input s -> run sched s = Some s' -> reachable input s'.
Proof.
  intros [sched0 H0] H. exists (sched0 ++ sched). rewrite run_app, H0. exact H.
Qed.

Lemma reachable_step (input : list read_event) (t : tid) (s s' : state) :
  reachable input s -> exec t s = Some s' -> reachable input s'.
Proof.
  intros Hr H. apply (reachable_run input [t] s s' Hr). simpl. rewrite H. reflexivity.
Qed.

(** Induction over the executions from [init input]. *)
Lemma reachable_induction (input : list read_event) (P : state -> Prop) :
  P (init input) ->
  (forall t s s', reachable input s -> P s -> exec t s = Some s' -> P s') ->
  forall s, reachable input s -> P s.
Proof.
  intros Hinit Hstep s [sched Hrun]. revert s Hrun.
  induction sched as [|t sched IH] using rev_ind; intros s Hrun.
  - simpl in Hrun. inversion Hrun; subst. exact Hinit.
  - rewrite run_app in Hrun.
    destruct (run sched (init input)) as [s0|] eqn:H0; [|discriminate].
    simpl in Hrun. destruct (exec t s0) as [s1|] eqn:H1; [|discriminate].
    inversion Hrun; subst.
    apply (Hstep t s0 s); [exists sched; exact H0 | apply IH; reflexivity | exact H1].
Qed.

End Executions.

(** Split [H : exec t s = Some s'] into the branches of the program, and
    bring the facts about the state before the step into the goal. *)
Ltac exec_inv H :=
  unfold exec, exec_main, exec_worker, exec_printer, leave_try in H;
  try change (is_KeyboardInterrupt (RuntimeError _)) with false in H;
  try change (is_KeyboardInterrupt (Exn "KeyboardInterrupt" "")) with true in H;
  repeat match type of H with
         | context [match ?x with _ => _ end] => destruct x eqn:?; try discriminate H
         end;
  inversion H; subst; clear H;
  cbn [ctl workers printer inq outq stdin stdout log
       with_ctl with_workers with_printer with_inq with_outq with_stdin with_stdout emit] in *;
  repeat match goal with
         | Heq : ctl ?s = _ |- context [ctl ?s] => rewrite Heq
         | Heq : printer ?s = _ |- context [printer ?s] => rewrite Heq
         | Heq : inq ?s = _ |- context [inq ?s] => rewrite Heq
         | Heq : outq ?s = _ |- context [outq ?s] => rewrite Heq
         | Heq : stdin ?s = _ |- context [stdin ?s] => rewrite Heq
         end.

Section Invariants.
Context {RT : Runtime} {EN : Engine}.

Lemma pool_size (input : list read_event) (s : state) :
  reachable input s -> length (workers s) = number_of_threads.
Proof.
  revert s. apply reachable_induction; [|intros t s s' Hr IH H].
  - simpl. apply length_replicate.
  - destruct t; exec_inv H; rewrite ?length_insert; exact IH.
Qed.

Lemma is_poison_pill_true (x : pyobj) :
  is_poison_pill x = true -> x = PyStr POISON_PILL.
Proof.
  destruct x as [str| |]; simpl; try discriminate.
  intros H. apply String.eqb_eq in H. congruence.
Qed.

Lemma request_not_pill (x : pyobj) :
  request_or_pill x -> is_poison_pill x = false -> exists r, x = PyRequest r.
Proof.
  destruct x as [str|r|r]; simpl; intros H Hp.
  - subst. discriminate.
  - exists r. reflexivity.
  - contradiction.
Qed.

Lemma response_not_pill (x : pyobj) :
  response_or_pill x -> is_poison_pill x = false -> exists r, x = PyResponse r.
Proof.
  destruct x as [str|r|r]; simpl; intros H Hp.
  - subst. discriminate.
  - contradiction.
  - exists r. reflexivity.
Qed.

Lemma sound_reachable (input : list read_event) (s : state) :
  reachable input s -> sound s.
Proof.
  revert s. apply reachable_induction; [|intros t s s' Hr IH H].
  - repeat split; simpl; try constructor.
    apply Forall_replicate. exact I.
  - destruct IH as (Hin & Hout & Hws & Hp). unfold sound.
    destruct t; exec_inv H.
    all: repeat match goal with
         | Hw : workers ?s0 !! _ = Some _, Hf : Forall worker_sound (workers ?s0) |- _ =>
             apply (Forall_lookup_1 _ _ _ _ Hf) in Hw; simpl in Hw
         | Heq : inq ?s0 = _, Hf : Forall _ (inq ?s0) |- _ => rewrite Heq in Hf
         | Heq : outq ?s0 = _, Hf : Forall _ (outq ?s0) |- _ => rewrite Heq in Hf
         | Hf : Forall _ (_ :: _) |- _ => inversion Hf; subst; clear Hf
         end.
    all: repeat split; simpl; auto.
    all: try (apply Forall_insert; simpl; auto).
    all: try (apply Forall_app; split; auto; repeat constructor).
    + destruct (request_not_pill _ H1 Heqb) as [r ->]. exact I.
    + destruct request; try contradiction. discriminate.
    + destruct (response_not_pill _ H1 Heqb) as [r Hr']. discriminate.
Qed.

Lemma lookup_insert_cases (ws : list wstate) (i j : nat) (w0 w' w : wstate) :
  ws !! i = Some w0 -> <[i := w']> ws !! j = Some w ->
  (j = i /\ w = w') \/ (j <> i /\ ws !! j = Some w).
Proof.
  intros H0 H. destruct (decide (j = i)) as [->|Hne].
  - left. split; [reflexivity|].
    rewrite list_lookup_insert_eq in H by (eapply lookup_lt_Some; exact H0).
    congruence.
  - right. split; [exact Hne|]. rewrite list_lookup_insert_ne in H by congruence. exact H.
Qed.

Lemma count_insert (p : wstate -> bool) (ws : list wstate) (i : nat) (w w' : wstate) :
  ws !! i = Some w ->
  count p (<[i := w']> ws) + (if p w then 1 else 0) = count p ws + (if p w' then 1 else 0).
Proof.
  revert i. induction ws as [|w0 ws IH]; intros i H; [discriminate|].
  destruct i as [|i]; simpl in *.
  - inversion H; subst. lia.
  - specialize (IH i H). lia.
Qed.

Lemma count_le_length (p : wstate -> bool) (ws : list wstate) : count p ws <= length ws.
Proof. induction ws as [|w ws IH]; simpl; [lia|]. destruct (p w); lia. Qed.

Lemma count_lt_length (p : wstate -> bool) (ws : list wstate) (i : nat) (w : wstate) :
  ws !! i = Some w -> p w = false -> count p ws < length ws.
Proof.
  revert i. induction ws as [|w0 ws IH]; intros i H Hp; [discriminate|].
  destruct i as [|i]; simpl in *.
  - inversion H; subst. rewrite Hp. pose proof (count_le_length p ws). lia.
  - specialize (IH i H Hp). destruct (p w0); lia.
Qed.

Lemma started_reachable (input : list read_event) (s : state) :
  reachable input s -> started_inv s.
Proof.
  revert s. apply reachable_induction; [|intros t s s' Hr IH H].
  - split; simpl; [reflexivity|]. intros j w Hw.
    apply lookup_replicate in Hw as [-> _]. reflexivity.
  - destruct IH as [Hp Hws]. unfold started_inv.
    destruct t; exec_inv H; simpl in Hp; try discriminate Hp.
    all: split; [simpl; congruence|]; rewrite ?length_insert; intros j' w' Hw.
    all: try (eapply lookup_insert_cases in Hw; [|eassumption];
              destruct Hw as [[-> ->]|[Hne Hw]]).
    all: repeat match goal with
         | Hl : workers ?s0 !! ?a = Some _ |- _ =>
             pose proof (lookup_lt_Some _ _ _ Hl); apply Hws in Hl
         | Hl : workers ?s0 !! ?a = None |- _ => apply lookup_ge_None in Hl
         end; simpl in *.
    all: repeat match goal with
         | |- context [Nat.ltb ?a ?b] => destruct (Nat.ltb_spec a b)
         | Hx : context [Nat.ltb ?a ?b] |- _ => destruct (Nat.ltb_spec a b)
         end; try congruence; try lia.
Qed.

Lemma inq_reachable (input : list read_event) (s : state) :
  reachable input s -> inq_inv s.
Proof.
  revert s. apply reachable_induction; [|intros t s s' Hr IH H].
  - unfold inq_inv. simpl. split; [constructor|].
    induction number_of_threads; simpl; auto.
  - unfold inq_inv in *.
    destruct t; exec_inv H; rewrite ?length_insert; simpl in *.
    all: try match goal with
         | Hl : workers ?s0 !! ?a = Some ?w |- context [<[?a := ?w']> (workers ?s0)] =>
             pose proof (count_insert is_exited _ _ _ w' Hl)
         end.
    all: repeat match goal with
         | Hl : workers ?s0 !! ?a = Some _ |- _ => apply lookup_lt_Some in Hl
         | Hl : workers ?s0 !! ?a = None |- _ => apply lookup_ge_None in Hl
         | Heq : inq ?s0 = _, Hf : Forall _ (inq ?s0) /\ _ |- _ => rewrite Heq in Hf
         end.
    all: try match goal with
         | |- match ?x with _ => _ end => destruct x
         end.
    all: repeat match goal with
         | Hc : _ /\ _ |- _ => destruct Hc
         | Hf : Forall _ (_ :: _) |- _ => inversion Hf; subst; clear Hf
         end.
    all: simpl in *; try congruence.
    all: repeat split; rewrite ?length_app; simpl; try lia; auto.
    all: try (apply Forall_app; split; auto; repeat constructor).
Qed.

Lemma outq_reachable (input : list read_event) (s : state) :
  reachable input s -> outq_inv s.
Proof.
  revert s. apply reachable_induction; [|intros t s s' Hr IH H].
  - unfold outq_inv. simpl. split; [constructor | discriminate].
  - unfold outq_inv in *.
    destruct t; exec_inv H; simpl in *.
    all: repeat match goal with
         | Heq : outq ?s0 = _, Hf : context [Forall _ (outq ?s0)] |- _ => rewrite Heq in Hf
         | Heq : outq ?s0 = _, Hf : context [Exists _ (outq ?s0)] |- _ => rewrite Heq in Hf
         | Heq : printer ?s0 = _, Hf : context [printer ?s0 = PExited] |- _ => rewrite Heq in Hf
         | Heq : printer ?s0 = _, Hf : context [printer ?s0 <> PExited] |- _ => rewrite Heq in Hf
         end.
    all: try match goal with
         | |- if ?x then _ else _ => destruct x
         end.
    all: repeat match goal with
         | Hc : _ /\ _ |- _ => destruct Hc
         | Hf : Forall _ (_ :: _) |- _ => inversion Hf; subst; clear Hf
         end.
    all: try congruence; auto.
    all: try (split; [|congruence]).
    all: try (apply Forall_app; split; auto; repeat constructor).
    all: try (destruct IH as [IH|IH]; [try discriminate IH; left; exact IH|]).
    all: right.
    all: repeat match goal with
         | He : Exists _ (_ :: _) |- _ => inversion He; subst; clear He
         end; try congruence; auto.
    all: apply Exists_app; auto.
Qed.

Lemma joined_reachable (input : list read_event) (s : state) :
  reachable input s -> joined_inv s.
Proof.
  revert s. apply reachable_induction; [|intros t s s' Hr IH H].
  - exact I.
  - pose proof (sound_reachable _ _ Hr) as (_ & _ & Hws & Hp).
    pose proof (started_reachable _ _ Hr) as [Hps Hst].
    unfold joined_inv in *.
    destruct t as [|i|].
    + exec_inv H; rewrite ?length_insert; simpl in *; auto.
      all: repeat match goal with
           | Heq : printer ?s0 = _, Hf : context [printer ?s0] |- _ => rewrite Heq in Hf
           end; simpl in *; try discriminate; try contradiction.
      all: try match goal with
           | Hl : workers ?s0 !! _ = Some (WCrashed _) |- _ =>
               apply (Forall_lookup_1 _ _ _ _ Hws) in Hl; contradiction
           end.
      all: try match goal with
           | Hl : workers ?s0 !! _ = Some WNotStarted |- _ =>
               pose proof (lookup_lt_Some _ _ _ Hl) as Hlt; apply Hst in Hl;
               apply Nat.ltb_lt in Hlt; simpl in Hl; congruence
           end.
      * split; [lia | intros; lia].
      * destruct IH as [Hk IH]. apply lookup_lt_Some in Heqo as Hlt.
        split; [lia|]. intros j Hj.
        destruct (decide (j = k)) as [->|Hne]; [exact Heqo | apply IH; lia].
      * destruct IH as [Hk IH]. apply lookup_ge_None in Heqo.
        intros j w Hw. apply lookup_lt_Some in Hw as Hlt.
        rewrite IH in Hw by lia. congruence.
    + exec_inv H; rewrite ?length_insert; simpl in *.
      all: destruct (ctl s) as [| | |[]|]; auto.
      all: repeat match goal with
           | Hc : _ /\ _ |- _ => destruct Hc
           | |- _ /\ _ => split
           end; auto.
      all: intros j; intros.
      all: try match goal with
           | Hl : <[_ := _]> _ !! _ = Some _ |- _ =>
               eapply lookup_insert_cases in Hl; [|eassumption];
               destruct Hl as [[-> ->]|[Hne Hl]]
           end; eauto.
      all: try match goal with
           | Ha : forall j w, workers ?s0 !! j = Some w -> w = WExited,
             Hl : workers ?s0 !! _ = Some _ |- _ => apply Ha in Hl; discriminate Hl
           end.
      all: destruct (decide (j = i)) as [->|Hne];
        [ match goal with
          | Ha : forall j, j < ?k -> workers ?s0 !! j = Some WExited,
            Hl : workers ?s0 !! ?i = Some _, Hlt : ?i < ?k |- _ =>
              rewrite (Ha _ Hlt) in Hl; discriminate Hl
          end
        | rewrite list_lookup_insert_ne by congruence; auto ].
    + exec_inv H; simpl in *.
      all: destruct (ctl s) as [| | |[]|]; auto.
      all: destruct IH as [IH1 IH2]; congruence.
Qed.

Lemma close_done_reachable (input : list read_event) (s : state) :
  reachable input s ->
  List.filter is_close_event (log s) = close_done (length (workers s)) (ctl s).
Proof.
  revert s. apply reachable_induction; [|intros t s s' Hr IH H].
  - reflexivity.
  - pose proof (sound_reachable _ _ Hr) as (_ & _ & Hws & Hp).
    pose proof (started_reachable _ _ Hr) as [Hps Hst].
    pose proof (inq_reachable _ _ Hr) as Hinq.
    pose proof (joined_reachable _ _ Hr) as Hj.
    unfold inq_inv, joined_inv in *.
    destruct t; exec_inv H; rewrite ?length_insert, ?List.filter_app.
    all: cbn [List.filter is_close_event close_done pills_due] in *.
    all: rewrite ?app_nil_r; try exact IH; try (rewrite IH; reflexivity).
    all: try match goal with
         | Hl : workers ?s0 !! _ = Some (WCrashed _) |- _ =>
             apply (Forall_lookup_1 _ _ _ _ Hws) in Hl; contradiction
         | Hl : workers ?s0 !! _ = Some WNotStarted |- _ =>
             pose proof (lookup_lt_Some _ _ _ Hl) as Hlt; apply Hst in Hl;
             apply Nat.ltb_lt in Hlt; simpl in Hl; congruence
         | Hl : printer ?s0 = PCrashed _ |- _ => rewrite Hl in Hp; contradiction
         | Hl : printer ?s0 = PNotStarted |- _ =>
             rewrite Hl in Hps; simpl in Hps; discriminate
         end.
    all: try match goal with
         | Hl : workers ?s0 !! _ = None |- _ => apply lookup_ge_None in Hl
         end.
    all: unfold close_sequence; rewrite ?IH, ?replicate_S_end, ?seq_S, ?map_app.
    all: cbn [map Nat.add]; rewrite <- ?app_assoc; cbn [app]; try reflexivity.
    all: try (simpl in Hps; discriminate Hps).
    all: match goal with
         | Hge : length (workers ?s0) <= ?k |- _ =>
             assert (k = length (workers s0)) as -> by lia
         end; reflexivity.
Qed.

Lemma snoc_split {A : Type} (l l1 l2 : list A) (e a : A) :
  l ++ [e] = l1 ++ a :: l2 ->
  (l2 = [] /\ e = a /\ l = l1) \/ (exists l2', l2 = l2' ++ [e] /\ l = l1 ++ a :: l2').
Proof.
  intros H. destruct l2 as [|y l2 _] using rev_ind.
  - left. apply app_inj_tail in H as [-> ->]. auto.
  - right. exists l2.
    change (l1 ++ a :: l2 ++ [y]) with (l1 ++ (a :: l2) ++ [y]) in H.
    rewrite app_assoc in H. apply app_inj_tail in H as [-> ->]. auto.
Qed.

Lemma precedes_snoc (a b e : event) (l : list event) :
  precedes a b l -> (e = b -> In a l) -> precedes a b (l ++ [e]).
Proof.
  intros Hp He l1 l2 Heq.
  apply snoc_split in Heq as [(-> & -> & ->)|(l2' & -> & ->)].
  - apply He. reflexivity.
  - eapply Hp. reflexivity.
Qed.

(** A thread that has left its loop has logged it. *)
Lemma exit_logged (input : list read_event) (s : state) :
  reachable input s ->
  (forall i, workers s !! i = Some WExited -> In (EvWorkerExit i) (log s)) /\
  (printer s = PExited -> In EvPrinterExit (log s)).
Proof.
  revert s. apply reachable_induction; [|intros t s s' Hr [IHw IHp] H].
  - split; simpl; [|discriminate].
    intros i Hi. apply lookup_replicate in Hi as [Hi _]. discriminate.
  - destruct t; exec_inv H.
    all: split; [intros j Hj | intros Hj]; try discriminate Hj.
    all: try match goal with
         | Hl : <[_ := _]> _ !! _ = Some _ |- _ =>
             eapply lookup_insert_cases in Hl; [|eassumption];
             destruct Hl as [[-> Hl]|[Hne Hl]]; try discriminate Hl
         end.
    all: try apply in_or_app.
    all: solve [ auto | left; auto | right; simpl; auto
               | apply IHp; congruence | left; apply IHp; congruence ].
Qed.

(** A thread is joined after it has left its loop. *)
Lemma join_after_exit (input : list read_event) (s : state) :
  reachable input s ->
  (forall k, precedes (EvWorkerExit k) (EvJoinWorker k) (log s)) /\
  precedes EvPrinterExit EvJoinPrinter (log s).
Proof.
  revert s. apply reachable_induction; [|intros t s s' Hr [IHw IHp] H].
  - split; [intros k|]; intros l1 l2 Heq; destruct l1; discriminate.
  - pose proof (sound_reachable _ _ Hr) as (_ & _ & Hws & Hp).
    pose proof (exit_logged _ _ Hr) as [Hew Hep].
    destruct t; exec_inv H; try (split; [exact IHw | exact IHp]).
    all: split; [intros k0|]; apply precedes_snoc; auto; intros He;
      try discriminate He.
    all: try match goal with
         | Hl : workers ?s0 !! _ = Some (WCrashed _) |- _ =>
             apply (Forall_lookup_1 _ _ _ _ Hws) in Hl; contradiction
         end.
    all: try (inversion He; subst; auto).
    contradiction.
Qed.






(** Every atomic action brings the end nearer. *)
Lemma measure_decreases (t : tid) (s s' : state) :
  exec t s = Some s' -> measure s' < measure s.
Proof.
  intros H. unfold measure.
  destruct t; exec_inv H; rewrite ?length_insert, ?length_app; cbn [main_rank length].
  all: try match goal with
       | Hl : workers ?s0 !! ?a = Some ?w |- context [<[?a := ?w']> (workers ?s0)] =>
           pose proof (count_insert is_busy _ _ _ w' Hl) as Hcount; cbn [is_busy] in Hcount
       end.
  all: repeat match goal with
       | Hl : workers ?s0 !! ?a = Some _ |- _ => apply lookup_lt_Some in Hl
       | Hl : workers ?s0 !! ?a = None |- _ => apply lookup_ge_None in Hl
       end.
  all: lia.
Qed.

(** No execution is longer than the measure of its first state. *)
Lemma run_bounded (sched : list tid) (s s' : state) :
  run sched s = Some s' -> length sched + measure s' <= measure s.
Proof.
  revert s. induction sched as [|t sched IH]; intros s H; simpl in H.
  - inversion H; subst. simpl. lia.
  - destruct (exec t s) as [s1|] eqn:H1; [|discriminate].
    apply measure_decreases in H1. apply IH in H. simpl. lia.
Qed.

(** Inside [_close] the pending exception is kept, up to the end. *)
Lemma close_step (input : list read_event) (t : tid) (s s' : state)
    (pc : close_pc) (pend : option exn) :
  reachable input s -> ctl s = CClose pc pend -> exec t s = Some s' ->
  (exists pc', ctl s' = CClose pc' pend) \/ ctl s' = CStopped pend.
Proof.
  intros Hr Hc H.
  pose proof (started_reachable _ _ Hr) as [Hps Hst]. rewrite Hc in Hps, Hst.
  destruct t; exec_inv H; try discriminate Hc; inversion Hc; subst; eauto.
  - pose proof (lookup_lt_Some _ _ _ Heqo) as Hlt. apply Hst in Heqo.
    apply Nat.ltb_lt in Hlt. simpl in Heqo. congruence.
  - simpl in Hps. discriminate Hps.
Qed.

Lemma stopped_step (t : tid) (s s' : state) (outcome : option exn) :
  ctl s = CStopped outcome -> exec t s = Some s' -> ctl s' = CStopped outcome.
Proof.
  intros Hc H. destruct t; exec_inv H; congruence.
Qed.

Lemma close_run (input : list read_event) (sched : list tid) (s s' : state)
    (pend : option exn) :
  reachable input s ->
  (exists pc, ctl s = CClose pc pend) \/ ctl s = CStopped pend ->
  run sched s = Some s' ->
  (exists pc', ctl s' = CClose pc' pend) \/ ctl s' = CStopped pend.
Proof.
  revert s. induction sched as [|t sched IH]; intros s Hr Hc H; simpl in H.
  - inversion H; subst. exact Hc.
  - destruct (exec t s) as [s1|] eqn:H1; [|discriminate].
    pose proof (reachable_step _ _ _ _ Hr H1) as Hr1.
    apply (IH s1 Hr1); [|exact H].
    destruct Hc as [[pc Hc]|Hc].
    + apply (close_step input t s s1 pc pend Hr Hc H1).
    + right. apply (stopped_step t s s1 pend Hc H1).
Qed.

Lemma worker_busy_enabled (s : state) (i : nat) (x : pyobj) :
  workers s !! i = Some (WBusy x) -> exists s', exec (TWorker i) s = Some s'.
Proof.
  intros H. simpl. unfold exec_worker. rewrite H. destruct (handle x); eauto.
Qed.

Lemma worker_idle_enabled (s : state) (i : nat) :
  workers s !! i = Some WIdle -> inq s <> [] -> exists s', exec (TWorker i) s = Some s'.
Proof.
  intros H Hq. simpl. unfold exec_worker. rewrite H.
  destruct (inq s) as [|x rest]; [congruence|]. destruct (is_poison_pill x); eauto.
Qed.

Lemma printer_enabled (s : state) :
  printer s = PWaiting -> outq s <> [] -> exists s', exec TPrinter s = Some s'.
Proof.
  intros H Hq. simpl. unfold exec_printer. rewrite H.
  destruct (outq s) as [|x rest]; [congruence|].
  destruct (is_poison_pill x); eauto. destruct x; eauto.
Qed.

(** Inside [_close] some thread can always move. *)
Lemma close_progress (input : list read_event) (s : state)
    (pc : close_pc) (pend : option exn) :
  reachable input s -> ctl s = CClose pc pend -> exists t s', exec t s = Some s'.
Proof.
  intros Hr Hc.
  pose proof (inq_reachable _ _ Hr) as Hinq.
  pose proof (outq_reachable _ _ Hr) as Houtq.
  unfold inq_inv, outq_inv in *. rewrite Hc in Hinq, Houtq.
  destruct pc as [| |k| |k|]; simpl in *.
  1-4: exists TMain; simpl; unfold exec_main; rewrite Hc; eauto.
  - destruct (workers s !! k); eauto.
  - destruct (workers s !! k) as [w|] eqn:Hk.
    + destruct w as [| |x| |e].
      * exists TMain. simpl. unfold exec_main. rewrite Hc, Hk. eauto.
      * exists (TWorker k). apply worker_idle_enabled; [exact Hk|].
        pose proof (count_lt_length is_exited _ _ _ Hk eq_refl).
        destruct (inq s); [simpl in *; lia | discriminate].
      * exists (TWorker k). eapply worker_busy_enabled. exact Hk.
      * exists TMain. simpl. unfold exec_main. rewrite Hc, Hk. eauto.
      * exists TMain. simpl. unfold exec_main. rewrite Hc, Hk. eauto.
    + exists TMain. simpl. unfold exec_main. rewrite Hc, Hk. eauto.
  - destruct (printer s) as [| | |e] eqn:Hp.
    2: { exists TPrinter. apply printer_enabled; [exact Hp|].
         destruct Houtq as [Hx|Hx]; [discriminate|].
         destruct (outq s); [inversion Hx | discriminate]. }
    all: exists TMain; simpl; unfold exec_main; rewrite Hc, Hp; eauto.
Qed.


End Invariants.

(** ** The pipeline *)

Section Pipeline.
Context {RT : Runtime} {EN : Engine}.



(** C2, as amended: the request queue holds requests and the string
    [POISON_PILL], the response queue responses and the string [POISON_PILL];
    the test of the workers and of the printer is true of the string and
    false of every request and response. *)
Theorem marker_is_reserved_string (input : list read_event) (s : state) :
  reachable input s ->
  (forall x, In x (inq s) ->
             (exists r, x = PyRequest r /\ is_poison_pill x = false) \/
             (x = PyStr POISON_PILL /\ is_poison_pill x = true)) /\
  (forall x, In x (outq s) ->
             (exists r, x = PyResponse r /\ is_poison_pill x = false) \/
             (x = PyStr POISON_PILL /\ is_poison_pill x = true)).
Proof.
  intros Hr. destruct (sound_reachable _ _ Hr) as (Hin & Hout & _ & _).
  split; intros x Hx.
  - apply (proj1 (List.Forall_forall _ _) Hin) in Hx.
    destruct x as [str|r|r]; simpl in Hx; [subst; right; auto | left; eauto | contradiction].
  - apply (proj1 (List.Forall_forall _ _) Hout) in Hx.
    destruct x as [str|r|r]; simpl in Hx; [subst; right; auto | contradiction | left; eauto].
Qed.


(** C4: with an engine that returns its source tokens, a line with the id [n]
    and the source [src] is answered by the object with the id [n] and the
    translation [src]: joining the tokens of [src] gives [src] back. *)
Theorem identity_round_trip (line : string) (members : list (string * json pyfloat))
    (n : Z) (src : string) :
  (forall source suggestions, translate source suggestions = Ok source) ->
  json_loads line = Some (JObj members) ->
  dict_get "id" members = Some (JInt n) ->
  dict_get "source" members = Some (JStr src) ->
  dict_get "suggestions" members = None ->
  exists request,
    from_json_string line = Ok request /\
    handle (PyRequest request) = Ok (respond request) /\
    to_json_obj (respond request) = JObj [("id", JInt n); ("translation", JStr src)] /\
    to_json_string (respond request)
    = json_dumps (JObj [("id", JInt n); ("translation", JStr src)]) /\
    join " " (split space src) = src.
Proof.
  intros Hid Hloads Hn Hsrc Hsugg.
  exists (mkTranslationRequest n (split space src) []).
  assert (Hobj : to_json_obj (respond (mkTranslationRequest n (split space src) []))
                 = JObj [("id", JInt n); ("translation", JStr src)]).
  { unfold respond. simpl. rewrite Hid. unfold to_json_obj. simpl.
    rewrite join_split. reflexivity. }
  split.
  - unfold from_json_string. rewrite Hloads. unfold from_json_obj. simpl.
    rewrite Hn. simpl. rewrite Hsrc. simpl. rewrite Hsugg. reflexivity.
  - split; [reflexivity|]. split; [exact Hobj|].
    split; [unfold to_json_string; rewrite Hobj; reflexivity | apply join_split].
Qed.

(** C10: the response built from the tokens [translate] returned serializes
    as a success with the tokens joined; when there is no token at all the
    translation is the empty string. *)
Theorem empty_translation_is_success (r : TranslationRequest pyfloat) (tokens : list string) :
  translate (req_source r) (req_suggestions r) = Ok tokens ->
  exists response,
    handle (PyRequest r) = Ok response /\
    translation response = Some tokens /\
    to_json_obj response
    = JObj [("id", JInt (req_id r)); ("translation", JStr (join " " tokens))] /\
    (tokens = [] ->
     to_json_obj response = JObj [("id", JInt (req_id r)); ("translation", JStr "")]).
Proof.
  intros H. exists (respond r). split; [reflexivity|].
  unfold respond. rewrite H. split; [reflexivity|]. split; [reflexivity|].
  intros ->. reflexivity.
Qed.

(** Once the main thread is in [_close], or has left [serve_forever], no line
    is read and no request is put on the queue. *)
Lemma closed_step_input (t : tid) (s s' : state) :
  (exists pc pend, ctl s = CClose pc pend) \/ (exists outcome, ctl s = CStopped outcome) ->
  exec t s = Some s' ->
  stdin s' = stdin s /\
  List.filter is_enqueue_event (log s') = List.filter is_enqueue_event (log s).
Proof.
  intros Hc H.
  destruct t; exec_inv H; rewrite ?List.filter_app; simpl; rewrite ?app_nil_r; auto.
  all: destruct Hc as [(pc & pend & Hc)|(outcome & Hc)]; discriminate Hc.
Qed.

Lemma closed_run_input (input : list read_event) (sched : list tid) (s s' : state)
    (pend : option exn) :
  reachable input s ->
  (exists pc, ctl s = CClose pc pend) \/ ctl s = CStopped pend ->
  run sched s = Some s' ->
  stdin s' = stdin s /\
  List.filter is_enqueue_event (log s') = List.filter is_enqueue_event (log s).
Proof.
  revert s. induction sched as [|t sched IH]; intros s Hr Hc H; simpl in H.
  - inversion H; subst. auto.
  - destruct (exec t s) as [s1|] eqn:H1; [|discriminate].
    pose proof (reachable_step _ _ _ _ Hr H1) as Hr1.
    pose proof (close_run input [t] s s1 pend Hr Hc) as Hc1.
    simpl in Hc1. rewrite H1 in Hc1. specialize (Hc1 eq_refl).
    destruct (IH s1 Hr1 Hc1 H) as [Hin Hlog].
    destruct (closed_step_input t s s1) as [Hin1 Hlog1]; [|exact H1|split; congruence].
    destruct Hc as [[pc Hc]|Hc]; eauto.
Qed.

(** C5: when [serve_forever] has returned or raised, the actions of [_close]
    have been, in this order: clear the request queue, clear the response
    queue, one marker per worker on the request queue, one marker on the
    response queue, the join of every worker, the join of the printer; each
    join comes after the thread has left its loop.  The two clears leave the
    queues empty, and each marker is put at the back of its queue. *)
Theorem close_order (input : list read_event) (s : state) (outcome : option exn) :
  reachable input s ->
  ctl s = CStopped outcome ->
  List.filter is_close_event (log s) = close_sequence number_of_threads /\
  (forall k, precedes (EvWorkerExit k) (EvJoinWorker k) (log s)) /\
  precedes EvPrinterExit EvJoinPrinter (log s) /\
  (forall s0 pend,
      ctl s0 = CClose ClearIn pend ->
      exists s1, exec TMain s0 = Some s1 /\ inq s1 = [] /\ outq s1 = outq s0 /\
                 log s1 = log s0 ++ [EvClearIn]) /\
  (forall s0 pend,
      ctl s0 = CClose ClearOut pend ->
      exists s1, exec TMain s0 = Some s1 /\ outq s1 = [] /\ inq s1 = inq s0 /\
                 log s1 = log s0 ++ [EvClearOut]) /\
  (forall s0 pend k w,
      ctl s0 = CClose (PutIn k) pend -> workers s0 !! k = Some w ->
      exists s1, exec TMain s0 = Some s1 /\ inq s1 = inq s0 ++ [PyStr POISON_PILL] /\
                 log s1 = log s0 ++ [EvPillIn]) /\
  (forall s0 pend,
      ctl s0 = CClose PutOut pend ->
      exists s1, exec TMain s0 = Some s1 /\ outq s1 = outq s0 ++ [PyStr POISON_PILL] /\
                 log s1 = log s0 ++ [EvPillOut]).
Proof.
  intros Hr Hc.
  split.
  { rewrite (close_done_reachable _ _ Hr), Hc, (pool_size _ _ Hr). reflexivity. }
  split; [apply (join_after_exit _ _ Hr)|].
  split; [apply (join_after_exit _ _ Hr)|].
  repeat split.
  all: intros s0 pend; intros; simpl; unfold exec_main.
  all: repeat match goal with
       | Heq : ctl _ = _ |- _ => rewrite Heq; clear Heq
       | Heq : workers _ !! _ = _ |- _ => rewrite Heq; clear Heq
       end.
  all: eexists; split; [reflexivity|]; simpl; auto.
Qed.

(** C8: a line that does not parse as an object with an integer-coercible
    "id" and a string "source" makes [from_json_string] raise; nothing
    catches the exception in [serve_forever], the main thread goes into
    [_close] with the exception pending, and from there on it reads no line
    and puts no request on the queue: the rest of the input is never read,
    and the exception is what [serve_forever] raises at the end. *)
Theorem malformed_line_stops_ingestion (input : list read_event) (s : state)
    (line : string) (rest : list read_event) :
  reachable input s ->
  ctl s = CServe ->
  stdin s = RLine line :: rest ->
  line <> "" ->
  ~ well_formed_line line ->
  exists e s1,
    from_json_string line = Raise e /\
    exec TMain s = Some s1 /\
    ctl s1 = CClose ClearIn (Some e) /\
    inq s1 = inq s /\ outq s1 = outq s /\ stdout s1 = stdout s /\
    forall sched s',
      run sched s1 = Some s' ->
      stdin s' = rest /\
      List.filter is_enqueue_event (log s') = List.filter is_enqueue_event (log s) /\
      ((exists pc, ctl s' = CClose pc (Some e)) \/ ctl s' = CStopped (Some e)).
Proof.
  intros Hr Hc Hin Hline Hbad.
  destruct (malformed_line_raises line Hbad) as [e He].
  pose proof (parse_error_not_interrupt e (from_json_string_error line e He)) as Hki.
  apply String.eqb_neq in Hline.
  assert (H1 : exec TMain s
               = Some (emit (EvParseError e)
                         (with_ctl (CClose ClearIn (Some e)) (with_stdin rest s)))).
  { simpl. unfold exec_main, leave_try. rewrite Hc, Hin, Hline, He, Hki. reflexivity. }
  eexists e, _. split; [exact He|]. split; [exact H1|].
  repeat (split; [reflexivity|]).
  intros sched s' Hrun.
  pose proof (reachable_step _ _ _ _ Hr H1) as Hr1.
  destruct (closed_run_input input sched _ s' (Some e) Hr1) as [Hs Hl];
    [left; eexists; reflexivity | exact Hrun |].
  split; [exact Hs|]. split.
  - rewrite Hl. simpl. rewrite List.filter_app. simpl. apply app_nil_r.
  - eapply close_run; [exact Hr1 | left; eexists; reflexivity | exact Hrun].
Qed.


End Pipeline.

(** ** The statements at work on the small runtime *)

Section Examples.
#[local] Existing Instance Toy.runtime.
#[local] Existing Instance Toy.identity_engine.

Example normal_course :
  run Toy.sched_served (init [RLine Toy.line_abc]) = Some Toy.final_served /\
  ctl Toy.final_served = CStopped None /\
  stdout Toy.final_served = [to_json_string Toy.response_abc; newline].
Proof. vm_compute. auto. Qed.


(** The same loss when the input ends while the worker is at work: the
    printer takes its marker first, and the response stays on the queue. *)
Example late_response_stays_on_queue :
  run Toy.sched_late (init [RLine Toy.line_abc]) = Some Toy.final_late /\
  ctl Toy.final_late = CStopped None /\
  outq Toy.final_late = [PyResponse Toy.response_abc] /\
  stdout Toy.final_late = [].
Proof. vm_compute. auto. Qed.


(** C2, as stated, fails: what [_close] puts on the two queues is the string
    [POISON_PILL] itself, a [basestring] like any other. *)
Lemma marker_is_raw_string :
  exists s,
    run Toy.sched_markers (init []) = Some s /\
    inq s = [PyStr "__POISON_PILL__"] /\
    outq s = [PyStr "__POISON_PILL__"] /\
    isinstance_basestring (PyStr "__POISON_PILL__") = true.
Proof. exists Toy.state_markers. vm_compute. auto. Qed.

Lemma marker_is_reserved_string_witness :
  (forall x, In x (inq Toy.state_markers) ->
             (exists r, x = PyRequest r /\ is_poison_pill x = false) \/
             (x = PyStr POISON_PILL /\ is_poison_pill x = true)) /\
  (forall x, In x (outq Toy.state_markers) ->
             (exists r, x = PyResponse r /\ is_poison_pill x = false) \/
             (x = PyStr POISON_PILL /\ is_poison_pill x = true)).
Proof.
  apply (marker_is_reserved_string []).
  exists Toy.sched_markers. vm_compute. reflexivity.
Defined.

(** A request whose only token is the text of the marker is not the marker. *)
Example marker_text_as_source :
  is_poison_pill (PyRequest (mkTranslationRequest 7%Z ["__POISON_PILL__"] [])) = false.
Proof. reflexivity. Qed.


(** An engine that raises: the worker answers with the class and the text of
    the exception and goes on. *)
Example failing_engine_answer :
  @respond Toy.runtime Toy.failing_engine Toy.request_abc
  = mkTranslationResponse 1%Z None (Some "RuntimeError") (Some "out of memory") /\
  to_json_obj (@respond Toy.runtime Toy.failing_engine Toy.request_abc)
  = JObj [("id", JInt 1%Z);
          ("error", JObj [("type", JStr "RuntimeError"); ("message", JStr "out of memory")])].
Proof. split; reflexivity. Qed.

Lemma identity_round_trip_witness :
  exists request,
    from_json_string Toy.line_abc = Ok request /\
    handle (PyRequest request) = Ok (respond request) /\
    to_json_obj (respond request) = JObj [("id", JInt 1%Z); ("translation", JStr "a b c")] /\
    to_json_string (respond request)
    = json_dumps (JObj [("id", JInt 1%Z); ("translation", JStr "a b c")]) /\
    join " " (split space "a b c") = "a b c".
Proof.
  apply (identity_round_trip Toy.line_abc [("id", JInt 1%Z); ("source", JStr "a b c")]).
  - reflexivity.
  - reflexivity.
  - reflexivity.
  - reflexivity.
  - reflexivity.
Defined.

(** Repeated spaces give empty tokens, and come back as they were. *)
Example split_keeps_empty_tokens :
  split space "a  b " = ["a"; ""; "b"; ""] /\ join " " ["a"; ""; "b"; ""] = "a  b ".
Proof. split; reflexivity. Qed.

Lemma close_order_witness :
  List.filter is_close_event (log Toy.final_idle) = close_sequence number_of_threads /\
  (forall k, precedes (EvWorkerExit k) (EvJoinWorker k) (log Toy.final_idle)) /\
  precedes EvPrinterExit EvJoinPrinter (log Toy.final_idle) /\
  (forall s0 pend,
      ctl s0 = CClose ClearIn pend ->
      exists s1, exec TMain s0 = Some s1 /\ inq s1 = [] /\ outq s1 = outq s0 /\
                 log s1 = log s0 ++ [EvClearIn]) /\
  (forall s0 pend,
      ctl s0 = CClose ClearOut pend ->
      exists s1, exec TMain s0 = Some s1 /\ outq s1 = [] /\ inq s1 = inq s0 /\
                 log s1 = log s0 ++ [EvClearOut]) /\
  (forall s0 pend k w,
      ctl s0 = CClose (PutIn k) pend -> workers s0 !! k = Some w ->
      exists s1, exec TMain s0 = Some s1 /\ inq s1 = inq s0 ++ [PyStr POISON_PILL] /\
                 log s1 = log s0 ++ [EvPillIn]) /\
  (forall s0 pend,
      ctl s0 = CClose PutOut pend ->
      exists s1, exec TMain s0 = Some s1 /\ outq s1 = outq s0 ++ [PyStr POISON_PILL] /\
                 log s1 = log s0 ++ [EvPillOut]).
Proof.
  apply (close_order [] Toy.final_idle None).
  - exists Toy.sched_idle. vm_compute. reflexivity.
  - reflexivity.
Defined.

Example close_sequence_one_worker :
  List.filter is_close_event (log Toy.final_idle)
  = [EvClearIn; EvClearOut; EvPillIn; EvPillOut; EvJoinWorker 0; EvJoinPrinter].
Proof. reflexivity. Qed.

Lemma suggestion_score_default_witness :
  Forall2 (@score_parsed Toy.runtime)
    [JObj [("source", JStr "A"); ("target", JStr "a"); ("score", JStr "0.1")];
     JObj [("source", JStr "x"); ("target", JStr "y")]]
    [mkSuggestion ["A"] ["a"] (PyFloat 100%Z); mkSuggestion ["x"] ["y"] (PyInt 0%Z)] /\
  (forall x y : string,
      @parse_suggestion Toy.runtime (JObj [("source", JStr x); ("target", JStr y)])
      = Ok (mkSuggestion (split space x) (split space y) (PyInt 0%Z))).
Proof.
  apply (@suggestion_score_default Toy.runtime Toy.line_sugg
           [("id", JInt 2%Z); ("source", JStr "hello");
            ("suggestions",
             JArr [JObj [("source", JStr "A"); ("target", JStr "a"); ("score", JStr "0.1")];
                   JObj [("source", JStr "x"); ("target", JStr "y")]])]
           _
           (mkTranslationRequest 2%Z ["hello"]
              [mkSuggestion ["A"] ["a"] (PyFloat 100%Z);
               mkSuggestion ["x"] ["y"] (PyInt 0%Z)])).
  - reflexivity.
  - reflexivity.
  - reflexivity.
Defined.

Lemma line_bad_malformed : ~ well_formed_line Toy.line_bad.
Proof.
  intros (members & idv & n & src & Hloads & _). vm_compute in Hloads. discriminate Hloads.
Defined.

Lemma malformed_line_stops_ingestion_witness :
  exists e s1,
    from_json_string Toy.line_bad = Raise e /\
    exec TMain Toy.state_before_bad_line = Some s1 /\
    ctl s1 = CClose ClearIn (Some e) /\
    inq s1 = inq Toy.state_before_bad_line /\
    outq s1 = outq Toy.state_before_bad_line /\
    stdout s1 = stdout Toy.state_before_bad_line /\
    forall sched s',
      run sched s1 = Some s' ->
      stdin s' = [RLine Toy.line_abc] /\
      List.filter is_enqueue_event (log s')
      = List.filter is_enqueue_event (log Toy.state_before_bad_line) /\
      ((exists pc, ctl s' = CClose pc (Some e)) \/ ctl s' = CStopped (Some e)).
Proof.
  apply (malformed_line_stops_ingestion [RLine Toy.line_bad; RLine Toy.line_abc]
           Toy.state_before_bad_line Toy.line_bad [RLine Toy.line_abc]).
  - exists [TMain; TMain; TMain]. vm_compute. reflexivity.
  - reflexivity.
  - reflexivity.
  - discriminate.
  - exact line_bad_malformed.
Defined.


Lemma empty_translation_is_success_witness :
  exists response,
    @handle Toy.runtime Toy.silent_engine (PyRequest Toy.request_abc) = Ok response /\
    translation response = Some [] /\
    to_json_obj response = JObj [("id", JInt 1%Z); ("translation", JStr (join " " []))] /\
    ([] = [] :> list string ->
     to_json_obj response = JObj [("id", JInt 1%Z); ("translation", JStr "")]).
Proof.
  apply (@empty_translation_is_success Toy.runtime Toy.silent_engine Toy.request_abc []).
  reflexivity.
Defined.

End Examples.

(** * More of the code *)

(** ** Tokens *)

Lemma split_cons_space (s : string) :
  split space (String space s) = EmptyString :: split space s.
Proof. reflexivity. Qed.

Lemma split_no_space (tok : string) :
  occurrences space tok = 0 -> split space tok = [tok].
Proof.
  induction tok as [|c tok IH]; [reflexivity|].
  cbn [occurrences split]. destruct (Ascii.eqb c space); [discriminate|].
  intros H. rewrite IH by exact H. reflexivity.
Qed.

Lemma split_app_space (tok rest : string) :
  occurrences space tok = 0 ->
  split space (tok ++ String space rest) = tok :: split space rest.
Proof.
  induction tok as [|c tok IH]; [reflexivity|].
  cbn [occurrences]. intros H.
  change (String c tok ++ String space rest)%string
    with (String c (tok ++ String space rest)).
  cbn [split]. destruct (Ascii.eqb c space); [discriminate|].
  rewrite IH by exact H. reflexivity.
Qed.

(** X1: splitting the joined tokens gives the tokens back, when there is at
    least one token and no token has a space in it. *)
Theorem split_join (tokens : list string) :
  tokens <> [] ->
  Forall (fun tok => occurrences space tok = 0) tokens ->
  split space (join " " tokens) = tokens.
Proof.
  intros Hne Hall. induction Hall as [|tok rest Htok Hrest IH]; [congruence|].
  destruct rest as [|tok' rest].
  - simpl. apply split_no_space. exact Htok.
  - rewrite join_cons_nonempty by discriminate.
    change (tok ++ " " ++ join " " (tok' :: rest))%string
      with (tok ++ String space (join " " (tok' :: rest)))%string.
    rewrite split_app_space by exact Htok.
    rewrite IH by discriminate. reflexivity.
Qed.

(** X2: a string with n spaces splits into n + 1 tokens, none of which has a
    space in it: repeated, leading and trailing spaces give empty tokens. *)
Theorem split_tokens (s : string) :
  length (split space s) = S (occurrences space s) /\
  Forall (fun tok => occurrences space tok = 0) (split space s).
Proof.
  induction s as [|c s [IHl IHf]]; [split; [reflexivity | repeat constructor]|].
  cbn [split occurrences]. destruct (Ascii.eqb c space) eqn:Hc.
  - split; [simpl; rewrite IHl; reflexivity|]. constructor; [reflexivity | exact IHf].
  - destruct (split space s) as [|tok toks]; [simpl in IHl; discriminate|].
    split; [simpl in *; lia|].
    inversion IHf; subst. constructor; [|assumption].
    cbn [occurrences]. rewrite Hc. assumption.
Qed.

(** ** Parsing a line *)

Section MoreCodec.
Context {RT : Runtime}.

Lemma bind_ok {A B : Type} (r : result A) (k : A -> result B) (b : B) :
  bind r k = Ok b <-> exists a, r = Ok a /\ k a = Ok b.
Proof.
  destruct r as [a|e]; simpl; split.
  - eauto.
  - intros (a' & Ha & Hk). inversion Ha; subst. exact Hk.
  - discriminate.
  - intros (a' & Ha & _). discriminate.
Qed.

(** X4: the suggestions of a line parse all or none: the result has one
    suggestion for each object, in the same order, and the first object that
    fails makes the whole loop raise what that object raised. *)
Theorem parse_suggestions_all_or_none (sobjs : list (json pyfloat)) :
  (forall sgs,
      parse_suggestions sobjs = Ok sgs <->
      Forall2 (fun sobj sg => parse_suggestion sobj = Ok sg) sobjs sgs) /\
  (forall e,
      parse_suggestions sobjs = Raise e <->
      exists before sobj after sgs,
        sobjs = before ++ sobj :: after /\
        parse_suggestions before = Ok sgs /\
        parse_suggestion sobj = Raise e).
Proof.
  induction sobjs as [|sobj rest [IHok IHraise]].
  - split.
    + intros sgs. simpl. split.
      * intros H. inversion H; subst. constructor.
      * intros H. inversion H; subst. reflexivity.
    + intros e. simpl. split; [discriminate|].
      intros (before & sobj & after & sgs & H & _). destruct before; discriminate.
  - split.
    + intros sgs. cbn [parse_suggestions]. rewrite bind_ok. split.
      * intros (sg & Hsg & H). apply bind_ok in H as (sgs' & Hsgs & H).
        inversion H; subst. constructor; [exact Hsg | apply IHok; exact Hsgs].
      * intros H. inversion H as [|? sg ? sgs' Hsg Hrest]; subst.
        exists sg. split; [exact Hsg|]. apply IHok in Hrest. rewrite Hrest. reflexivity.
    + intros e. cbn [parse_suggestions]. split.
      * intros H. apply bind_raise in H as [H|(sg & Hsg & H)].
        -- exists [], sobj, rest, []. auto.
        -- apply bind_raise in H as [H|(sgs & _ & H)]; [|discriminate].
           apply IHraise in H as (before & sobj' & after & sgs & -> & Hb & He).
           exists (sobj :: before), sobj', after, (sg :: sgs).
           split; [reflexivity|]. split; [|exact He].
           cbn [parse_suggestions]. rewrite Hsg, Hb. reflexivity.
      * intros (before & sobj' & after & sgs & Heq & Hb & He).
        destruct before as [|b before]; simpl in Heq; inversion Heq; subst.
        -- rewrite He. reflexivity.
        -- cbn [parse_suggestions] in Hb. apply bind_ok in Hb as (sg & Hsg & Hb).
           apply bind_ok in Hb as (sgs' & Hsgs & _).
           rewrite Hsg. simpl.
           assert (Hr : parse_suggestions (before ++ sobj' :: after) = Raise e).
           { apply IHraise. exists before, sobj', after, sgs'. auto. }
           rewrite Hr. reflexivity.
Qed.

(** X3: [from_json_string] returns a request exactly for a line that is a
    JSON object with an "id" that [int()] accepts, a "source" that is a
    string, and suggestions that parse (none when the key is missing); the
    request has that integer, the tokens of the source, and the parsed
    suggestions. *)
Theorem from_json_string_ok (line : string) (request : TranslationRequest pyfloat) :
  from_json_string line = Ok request <->
  exists members idv n src sgs,
    json_loads line = Some (JObj members) /\
    dict_get "id" members = Some idv /\
    py_int idv = Ok n /\
    dict_get "source" members = Some (JStr src) /\
    match dict_get "suggestions" members with
    | Some sv => exists sobjs, py_iter sv = Ok sobjs /\ parse_suggestions sobjs = Ok sgs
    | None => sgs = []
    end /\
    request = mkTranslationRequest n (split space src) sgs.
Proof.
  unfold from_json_string, from_json_obj. split.
  - destruct (json_loads line) as [obj|]; [|discriminate].
    intros H. apply bind_ok in H as (idv & Hid & H).
    destruct obj as [| | | | | |members]; try discriminate Hid. simpl in Hid.
    destruct (dict_get "id" members) as [idv'|] eqn:Hidv; inversion Hid; subst.
    apply bind_ok in H as (n & Hn & H).
    apply bind_ok in H as (srcv & Hsrcv & H). simpl in Hsrcv.
    destruct (dict_get "source" members) as [srcv'|] eqn:Hs; inversion Hsrcv; subst.
    apply bind_ok in H as (toks & Htoks & H).
    destruct srcv as [| | | |src| |]; try discriminate Htoks.
    simpl in Htoks. inversion Htoks; subst.
    apply bind_ok in H as (sgs & Hsgs & H). inversion H; subst.
    exists members, idv, n, src, sgs. repeat (split; [reflexivity || assumption|]).
    split; [|reflexivity].
    destruct (dict_get "suggestions" members) as [sv|].
    + apply bind_ok in Hsgs as (sobjs & Hiter & Hp). eauto.
    + inversion Hsgs. reflexivity.
  - intros (members & idv & n & src & sgs & Hl & Hid & Hn & Hs & Hsg & ->).
    rewrite Hl. simpl. rewrite Hid. simpl. rewrite Hn. simpl. rewrite Hs. simpl.
    destruct (dict_get "suggestions" members) as [sv|].
    + destruct Hsg as (sobjs & Hiter & Hp). rewrite Hiter. simpl. rewrite Hp. reflexivity.
    + subst. reflexivity.
Qed.


(** X6: "suggestions" that is not an array: the empty string and the empty
    object are taken for no suggestions at all; every other value makes
    [from_json_string] raise TypeError. *)
Theorem suggestions_not_an_array (line : string) (members : list (string * json pyfloat))
    (idv : json pyfloat) (n : Z) (src : string) (sv : json pyfloat) :
  json_loads line = Some (JObj members) ->
  dict_get "id" members = Some idv ->
  py_int idv = Ok n ->
  dict_get "source" members = Some (JStr src) ->
  dict_get "suggestions" members = Some sv ->
  (forall items, sv <> JArr items) ->
  (sv = JStr "" \/ sv = JObj [] ->
   from_json_string line = Ok (mkTranslationRequest n (split space src) [])) /\
  (sv <> JStr "" -> sv <> JObj [] ->
   exists e, from_json_string line = Raise e /\ exn_type e = "TypeError").
Proof.
  intros Hl Hid Hn Hs Hsv Harr.
  unfold from_json_string, from_json_obj. rewrite Hl. simpl. rewrite Hid. simpl.
  rewrite Hn. simpl. rewrite Hs. simpl. rewrite Hsv. split.
  - intros [->| ->]; reflexivity.
  - intros H1 H2.
    destruct sv as [| | | |str|items|kvs]; simpl; eauto.
    + destruct str as [|c str]; [congruence|]. simpl. eauto.
    + exfalso. eapply Harr. reflexivity.
    + destruct kvs as [|kv kvs]; [congruence|]. simpl. eauto.
Qed.

(** X7: what [to_json_string] serializes, for any response object: an object
    of two members, "id" with the id of the response and then either
    "translation", when the response has a translation, or "error", when it
    has none; never both, and an error that comes with a translation is not
    written. *)
Theorem to_json_obj_members (r : TranslationResponse) :
  exists body,
    to_json_obj r = JObj [("id", JInt (resp_id r)); body] /\
    match translation r with
    | Some tokens => body = ("translation", JStr (join " " tokens))
    | None =>
        exists error,
          body = ("error", JObj error) /\
          dict_get "type" error
          = Some (match error_type r with Some name => JStr name | None => JNull end) /\
          dict_get "message" error = option_map JStr (error_message r)
    end.
Proof.
  unfold to_json_obj. destruct (translation r) as [tokens|].
  - eexists. split; reflexivity.
  - eexists. split; [reflexivity|]. eexists. split; [reflexivity|].
    destruct (error_message r); split; reflexivity.
Qed.

End MoreCodec.

(** ** Bookkeeping: what is read, taken, answered and written *)

(** Close a branch that the order of the starts excludes: a thread started
    twice, or joined before it was started. *)
Ltac started_absurd Hps Hst :=
  solve [ simpl in Hps; discriminate Hps
        | match goal with
          | Hl : workers _ !! _ = Some _ |- _ =>
              let Hlt := fresh "Hlt" in
              pose proof (lookup_lt_Some _ _ _ Hl) as Hlt; apply Hst in Hl; simpl in Hl;
              first [ rewrite Nat.ltb_irrefl in Hl; discriminate Hl
                    | apply Nat.ltb_lt in Hlt; congruence ]
          end ].

Section Bookkeeping.
Context {RT : Runtime} {EN : Engine}.

Lemma enqueued_snoc (l : list event) (e : event) :
  enqueued (l ++ [e]) = enqueued l ++ match e with EvEnqueue r => [r] | _ => [] end.
Proof. unfold enqueued. rewrite flat_map_app. simpl. rewrite app_nil_r. reflexivity. Qed.

Lemma dequeued_snoc (l : list event) (e : event) :
  dequeued (l ++ [e])
  = dequeued l ++ match e with EvDequeue _ (PyRequest r) => [r] | _ => [] end.
Proof. unfold dequeued. rewrite flat_map_app. simpl. rewrite app_nil_r. reflexivity. Qed.

Lemma responded_snoc (l : list event) (e : event) :
  responded (l ++ [e]) = responded l ++ match e with EvRespond _ r => [r] | _ => [] end.
Proof. unfold responded. rewrite flat_map_app. simpl. rewrite app_nil_r. reflexivity. Qed.

Lemma written_snoc (l : list event) (e : event) :
  written (l ++ [e]) = written l ++ match e with EvWrite r => [r] | _ => [] end.
Proof. unfold written. rewrite flat_map_app. simpl. rewrite app_nil_r. reflexivity. Qed.

Lemma raised_snoc (l : list event) (e : event) :
  raised (l ++ [e]) = raised l ++ match e with EvParseError x => [x] | _ => [] end.
Proof. unfold raised. rewrite flat_map_app. simpl. rewrite app_nil_r. reflexivity. Qed.

Lemma requests_of_snoc (q : list pyobj) (x : pyobj) :
  requests_of (q ++ [x]) = requests_of q ++ match x with PyRequest r => [r] | _ => [] end.
Proof. unfold requests_of. rewrite flat_map_app. simpl. rewrite app_nil_r. reflexivity. Qed.

Lemma responses_of_snoc (q : list pyobj) (x : pyobj) :
  responses_of (q ++ [x]) = responses_of q ++ match x with PyResponse r => [r] | _ => [] end.
Proof. unfold responses_of. rewrite flat_map_app. simpl. rewrite app_nil_r. reflexivity. Qed.

Lemma requests_of_cons (x : pyobj) (q : list pyobj) :
  requests_of (x :: q) = match x with PyRequest r => [r] | _ => [] end ++ requests_of q.
Proof. reflexivity. Qed.

Lemma responses_of_cons (x : pyobj) (q : list pyobj) :
  responses_of (x :: q) = match x with PyResponse r => [r] | _ => [] end ++ responses_of q.
Proof. reflexivity. Qed.

(** Rewrite the lists read off the log and the queues after a step. *)
Ltac log_simpl :=
  rewrite ?enqueued_snoc, ?dequeued_snoc, ?responded_snoc, ?written_snoc, ?raised_snoc,
    ?requests_of_snoc, ?responses_of_snoc, ?requests_of_cons, ?responses_of_cons;
  cbn iota; rewrite ?app_nil_r.

Lemma enqueued_reachable (input : list read_event) (s : state) :
  reachable input s -> enqueued_inv input s.
Proof.
  revert s. apply reachable_induction; [|intros t s s' Hr IH H].
  - reflexivity.
  - pose proof (started_reachable _ _ Hr) as [Hps Hst].
    unfold enqueued_inv in *.
    destruct t; exec_inv H; log_simpl; cbn [in_try] in *; auto.
    all: try started_absurd Hps Hst.
    all: cbn [accepted] in IH.
    all: repeat match goal with
         | Hx : String.eqb _ _ = _ |- _ => rewrite Hx in IH
         | Hx : from_json_string _ = _ |- _ => rewrite Hx in IH
         end.
    all: rewrite ?app_nil_r in IH; try exact IH.
    all: rewrite <- IH, <- ?app_assoc; reflexivity.
Qed.

Lemma outcome_reachable (input : list read_event) (s : state) :
  reachable input s -> outcome_inv input s.
Proof.
  revert s. apply reachable_induction; [|intros t s s' Hr IH H].
  - split; reflexivity.
  - pose proof (started_reachable _ _ Hr) as [Hps Hst].
    unfold outcome_inv in *. destruct IH as [IH1 IH2].
    destruct t; exec_inv H; log_simpl; cbn [in_try pending_exn] in *; auto.
    all: try started_absurd Hps Hst.
    all: cbn [first_error] in IH1.
    all: repeat match goal with
         | Hx : String.eqb _ _ = _ |- _ => rewrite Hx in IH1
         | Hx : from_json_string _ = _ |- _ => rewrite Hx in IH1
         end.
    all: try (split; [exact IH1 | exact IH2]).
    + pose proof (parse_error_not_interrupt e (from_json_string_error _ _ Heqr1)).
      congruence.
    + rewrite IH2. split; [exact IH1 | reflexivity].
Qed.

Lemma dequeued_reachable (input : list read_event) (s : state) :
  reachable input s -> dequeued_inv s.
Proof.
  revert s. apply reachable_induction; [|intros t s s' Hr IH H].
  - exists []. split; reflexivity.
  - unfold dequeued_inv in *. destruct IH as (dropped & IH & Hd).
    destruct t; exec_inv H; log_simpl; rewrite ?length_insert in *;
      cbn [pills_due] in *.
    all: try (exists dropped; split; [exact IH | auto; discriminate]).
    + exists []. rewrite (Hd eq_refl) in IH. rewrite IH, !app_nil_r, app_assoc.
      split; reflexivity.
    + exists (requests_of (inq s) ++ dropped). split; [exact IH | discriminate].
    + rewrite requests_of_cons in IH. apply is_poison_pill_true in Heqb. subst.
      exists dropped. split; [exact IH | exact Hd].
    + rewrite requests_of_cons in IH.
      exists dropped. split; [|exact Hd]. rewrite IH, <- !app_assoc. reflexivity.
Qed.

Lemma flat_map_insert {A B : Type} (f : A -> list B) (l : list A) (i : nat) (x y : A) :
  l !! i = Some x ->
  flat_map f (<[i := y]> l) ++ f x ≡ₚ flat_map f l ++ f y.
Proof.
  revert i. induction l as [|a l IH]; intros i H; [discriminate|].
  destruct i as [|i]; simpl in H; simpl.
  - inversion H; subst. solve_Permutation.
  - specialize (IH i H). rewrite <- !app_assoc, IH. reflexivity.
Qed.

Lemma busy_requests_insert (ws : list wstate) (i : nat) (w w' : wstate) :
  ws !! i = Some w ->
  busy_requests (<[i := w']> ws) ++ busy_requests [w]
  ≡ₚ busy_requests ws ++ busy_requests [w'].
Proof.
  intros H. unfold busy_requests. simpl. rewrite !app_nil_r.
  exact (flat_map_insert
           (fun w => match w with WBusy (PyRequest r) => [r] | _ => [] end)
           ws i w w' H).
Qed.

Lemma working_reachable (input : list read_event) (s : state) :
  reachable input s -> working_inv s.
Proof.
  revert s. apply reachable_induction; [|intros t s s' Hr IH H].
  - unfold working_inv. simpl. induction number_of_threads; simpl; auto.
  - pose proof (sound_reachable _ _ Hr) as (_ & _ & Hws & _).
    unfold working_inv in *.
    destruct t; exec_inv H; log_simpl; try exact IH.
    all: match goal with
         | Hl : workers ?s0 !! ?a = Some ?w |- context [<[?a := ?w']> (workers ?s0)] =>
             pose proof (busy_requests_insert _ _ _ w' Hl) as Hb;
             pose proof (Forall_lookup_1 _ _ _ _ Hws Hl) as Hsound;
             cbn in Hb, Hsound; rewrite ?app_nil_r in Hb
         end.
    + rewrite Hb. exact IH.
    + rewrite Hb. exact IH.
    + rewrite Hb, !fmap_app, app_assoc, IH. reflexivity.
    + destruct request as [|r|]; try contradiction.
      simpl in Heqr. inversion Heqr; subst.
      rewrite <- IH, <- Hb, fmap_app. simpl. solve_Permutation.
    + destruct request as [|r|]; try contradiction. discriminate.
Qed.

Lemma written_reachable (input : list read_event) (s : state) :
  reachable input s -> written_inv s.
Proof.
  revert s. apply reachable_induction; [|intros t s s' Hr IH H].
  - split; [reflexivity | intros _; reflexivity].
  - unfold written_inv in *. destruct IH as [IH1 IH2].
    destruct t; exec_inv H; log_simpl; cbn [out_cleared] in *;
      rewrite ?responses_of_cons in *; cbn iota in *; cbn [app] in *.
    all: try (split; [exact IH1 | exact IH2 || discriminate]).
    + split; [|discriminate].
      etransitivity; [|exact IH1]. apply sublist_inserts_r. reflexivity.
    + split.
      * rewrite app_assoc. apply sublist_app; [exact IH1 | reflexivity].
      * intros Hc. rewrite app_assoc, (IH2 Hc). reflexivity.
    + apply is_poison_pill_true in Heqb. subst. split; [exact IH1 | exact IH2].
    + rewrite <- app_assoc. split; [exact IH1 | exact IH2].
Qed.

(** What has been written is the lines of the responses the printer took. *)
Lemma stdout_reachable (input : list read_event) (s : state) :
  reachable input s -> stdout s = lines_of (written (log s)).
Proof.
  revert s. apply reachable_induction; [|intros t s s' Hr IH H].
  - reflexivity.
  - destruct t; exec_inv H; log_simpl; try exact IH.
    rewrite IH. unfold lines_of. rewrite flat_map_app. reflexivity.
Qed.

Lemma start_index_reachable (input : list read_event) (s : state) (k : nat) :
  reachable input s -> ctl s = CStartWorker k -> k <= length (workers s).
Proof.
  intros Hr. revert k. revert s Hr.
  apply (reachable_induction input
           (fun s => forall k, ctl s = CStartWorker k -> k <= length (workers s)));
    [|intros t s s' Hr IH H].
  - discriminate.
  - intros k' Hk'. destruct t; exec_inv H; rewrite ?length_insert;
      try discriminate Hk'; auto.
    all: try congruence.
    all: try (apply IH; exact Hk').
    all: inversion Hk'; subst; try lia.
    apply lookup_lt_Some in Heqo. lia.
Qed.

Lemma start_done_reachable (input : list read_event) (s : state) :
  reachable input s ->
  List.filter is_start_event (log s) = start_done (length (workers s)) (ctl s).
Proof.
  revert s. apply reachable_induction; [|intros t s s' Hr IH H].
  - reflexivity.
  - pose proof (started_reachable _ _ Hr) as [Hps Hst].
    pose proof (fun k => start_index_reachable input s k Hr) as Hk.
    destruct t; exec_inv H; rewrite ?length_insert, ?List.filter_app.
    all: cbn [List.filter is_start_event start_done] in *.
    all: rewrite ?app_nil_r; try exact IH.
    all: try started_absurd Hps Hst.
    all: rewrite ?IH, ?seq_S, ?map_app; try reflexivity.
    apply lookup_ge_None in Heqo. specialize (Hk k eq_refl).
    replace k with (length (workers s)) by lia. reflexivity.
Qed.

Lemma clear_logged (input : list read_event) (s : state) :
  reachable input s -> In EvClearIn (log s) ->
  exists k, pills_due (length (workers s)) (ctl s) = Some k.
Proof.
  intros Hr Hin.
  assert (Hf : In EvClearIn (List.filter is_close_event (log s)))
    by (apply List.filter_In; auto).
  rewrite (close_done_reachable _ _ Hr) in Hf.
  destruct (ctl s) as [| | |[]|]; simpl in Hf; try contradiction; simpl; eauto.
Qed.

Lemma after_clear_reachable (input : list read_event) (s : state) :
  reachable input s -> after_clear_inv s.
Proof.
  revert s. apply reachable_induction; [|intros t s s' Hr IH H].
  - intros l1 l2 Heq. destruct l1; discriminate.
  - pose proof (inq_reachable _ _ Hr) as Hinq.
    pose proof (clear_logged _ _ Hr) as Hcl.
    unfold after_clear_inv, inq_inv in *. intros l1 l2 Heq.
    destruct t; exec_inv H; try (apply (IH _ _ Heq)).
    all: apply snoc_split in Heq as [(-> & _ & _)|(l2' & -> & Heq)]; [constructor|].
    all: apply Forall_app; split; [apply (IH _ _ Heq)|].
    all: repeat constructor.
    all: assert (Hc : In EvClearIn (log s)) by (rewrite Heq; apply in_elt).
    all: destruct (Hcl Hc) as [k Hk].
    + simpl in Hk. discriminate Hk.
    + rewrite Hk in Hinq. destruct Hinq as [Hf _].
      inversion Hf; subst. congruence.
Qed.

Lemma printer_exit_logged (input : list read_event) (s : state) :
  reachable input s -> In EvPrinterExit (log s) -> printer s = PExited.
Proof.
  intros Hr. revert s Hr.
  apply (reachable_induction input
           (fun s => In EvPrinterExit (log s) -> printer s = PExited));
    [|intros t s s' Hr IH H].
  - intros [].
  - intros Hin. destruct t; exec_inv H; auto.
    all: apply in_app_or in Hin as [Hin|[Hin|[]]]; try discriminate Hin.
    all: try (apply IH in Hin; congruence).
Qed.

Lemma after_printer_exit_reachable (input : list read_event) (s : state) :
  reachable input s -> after_printer_exit_inv s.
Proof.
  revert s. apply reachable_induction; [|intros t s s' Hr IH H].
  - intros l1 l2 Heq. destruct l1; discriminate.
  - pose proof (printer_exit_logged _ _ Hr) as Hex.
    unfold after_printer_exit_inv in *. intros l1 l2 Heq.
    destruct t; exec_inv H; try (apply (IH _ _ Heq)).
    all: apply snoc_split in Heq as [(-> & _ & _)|(l2' & -> & Heq)]; [reflexivity|].
    all: rewrite written_snoc, (IH _ _ Heq); cbn iota; try reflexivity.
    assert (Hc : In EvPrinterExit (log s)) by (rewrite Heq; apply in_elt).
    apply Hex in Hc. congruence.
Qed.



Lemma count_busy_replicate (n : nat) : count is_busy (replicate n WNotStarted) = 0.
Proof. induction n; simpl; auto. Qed.

(** Before [serve_forever] has ended some thread can always move. *)
Lemma progress (input : list read_event) (s : state) :
  reachable input s -> (forall outcome, ctl s <> CStopped outcome) ->
  exists t s', exec t s = Some s'.
Proof.
  intros Hr Hc. destruct (ctl s) as [|k| |pc pend|outcome] eqn:Hctl.
  - exists TMain. simpl. unfold exec_main. rewrite Hctl. destruct (printer s); eauto.
  - exists TMain. simpl. unfold exec_main. rewrite Hctl.
    destruct (workers s !! k) as [[]|]; eauto.
  - exists TMain. simpl. unfold exec_main. rewrite Hctl.
    destruct (stdin s) as [|[line|] rest]; eauto.
    destruct (String.eqb line ""); eauto. destruct (from_json_string line); eauto.
  - eapply close_progress; eauto.
  - exfalso. eapply Hc. reflexivity.
Qed.

(** From every state the program can come to its end. *)
Lemma terminates (input : list read_event) (n : nat) :
  forall s, measure s < n -> reachable input s ->
            exists sched s' outcome, run sched s = Some s' /\ ctl s' = CStopped outcome.
Proof.
  induction n as [|n IH]; intros s Hm Hr; [lia|].
  destruct (ctl s) as [| | | |outcome] eqn:Hctl.
  5: { exists [], s, outcome. auto. }
  all: destruct (progress _ _ Hr) as (t & s1 & H1); [rewrite Hctl; discriminate|].
  all: pose proof (measure_decreases _ _ _ H1) as Hd.
  all: pose proof (reachable_step _ _ _ _ Hr H1) as Hr1.
  all: destruct (IH s1 ltac:(lia) Hr1) as (sched & s' & outcome & Hrun & Hs').
  all: exists (t :: sched), s', outcome; simpl; rewrite H1; auto.
Qed.

Lemma length_le_1_lookup (ws : list wstate) (i : nat) (w : wstate) :
  length ws <= 1 -> ws !! i = Some w -> ws = [w] /\ i = 0.
Proof.
  destruct ws as [|w0 [|w1 ws]]; simpl; intros Hl H; try discriminate; [|lia].
  destruct i; simpl in H; [inversion H; auto | discriminate].
Qed.

(** With one worker the responses are put on the queue in the order in
    which the requests were taken. *)
Lemma single_worker_reachable (input : list read_event) (s : state) :
  number_of_threads <= 1 ->
  reachable input s ->
  responded (log s) ++ (respond <$> busy_requests (workers s))
  = respond <$> dequeued (log s).
Proof.
  intros Hn. revert s.
  apply reachable_induction; [|intros t s s' Hr IH H].
  - simpl.
    destruct number_of_threads as [|[|n]]; [reflexivity | reflexivity | lia].
  - pose proof (sound_reachable _ _ Hr) as (_ & _ & Hws & _).
    pose proof (pool_size _ _ Hr) as Hsize.
    destruct t; exec_inv H; log_simpl; try exact IH.
    all: assert (Hle : length (workers s) <= 1) by lia.
    all: match goal with
         | Hl : workers ?s0 !! ?a = Some ?w |- _ =>
             pose proof (Forall_lookup_1 _ _ _ _ Hws Hl) as Hsound;
             destruct (length_le_1_lookup _ _ _ Hle Hl) as [Hw ->]
         end.
    all: rewrite Hw in IH |- *; cbn in IH, Hsound |- *; rewrite ?app_nil_r in *.
    + exact IH.
    + exact IH.
    + rewrite fmap_app, IH. destruct p; reflexivity.
    + destruct request as [|r|]; try contradiction.
      simpl in Heqr. inversion Heqr; subst. exact IH.
    + destruct request as [|r|]; try contradiction. discriminate.
Qed.

Lemma submseteq_NoDup_r {A : Type} (l k : list A) : l ⊆+ k -> NoDup k -> NoDup l.
Proof.
  intros Hsub Hk. apply submseteq_Permutation in Hsub as [k' Hk'].
  rewrite Hk' in Hk. apply NoDup_app in Hk as [Hl _]. exact Hl.
Qed.

Lemma written_answers (input : list read_event) (s : state) :
  reachable input s -> written (log s) ⊆+ (respond <$> accepted input).
Proof.
  intros Hr.
  destruct (written_reachable _ _ Hr) as [Hw _].
  pose proof (working_reachable _ _ Hr) as Hwork. unfold working_inv in Hwork.
  destruct (dequeued_reachable _ _ Hr) as (dropped & Hd & _).
  pose proof (enqueued_reachable _ _ Hr) as He. unfold enqueued_inv in He.
  transitivity (responded (log s)).
  { apply sublist_submseteq. etransitivity; [|exact Hw].
    apply sublist_inserts_r. reflexivity. }
  transitivity (respond <$> dequeued (log s)).
  { rewrite <- Hwork. apply submseteq_inserts_r. reflexivity. }
  apply fmap_submseteq. rewrite <- He, Hd.
  apply sublist_submseteq. rewrite <- !app_assoc. apply sublist_inserts_r. reflexivity.
Qed.

(** X8: the output stream holds whole lines only, the serialization of a
    response and a newline for each response written; and the responses
    written are, counted with their multiplicity, among the responses to the
    requests the read loop accepts on the input: nothing is written that
    answers no request, and no request is answered twice. *)
Theorem output_answers_input (input : list read_event) (s : state) :
  reachable input s ->
  stdout s = lines_of (written (log s)) /\
  written (log s) ⊆+ (respond <$> accepted input) /\
  length (written (log s)) <= length (accepted input).
Proof.
  intros Hr. split; [apply (stdout_reachable _ _ Hr)|].
  pose proof (written_answers _ _ Hr) as H. split; [exact H|].
  apply submseteq_length in H. rewrite length_fmap in H. exact H.
Qed.

(** X9: where the accepted requests are, in the order of the input: taken by
    a worker, waiting on the request queue, dropped when [_close] cleared the
    queue, or not yet read.  Before the clear nothing is dropped. *)
Theorem requests_conserved (input : list read_event) (s : state) :
  reachable input s ->
  exists dropped,
    accepted input
    = dequeued (log s) ++ requests_of (inq s) ++ dropped
        ++ (if in_try (ctl s) then accepted (stdin s) else []) /\
    (pills_due number_of_threads (ctl s) = None -> dropped = []).
Proof.
  intros Hr. destruct (dequeued_reachable _ _ Hr) as (dropped & Hd & Hnone).
  pose proof (enqueued_reachable _ _ Hr) as He. unfold enqueued_inv in He.
  exists dropped. rewrite (pool_size _ _ Hr) in Hnone. split; [|exact Hnone].
  rewrite <- He, Hd, <- !app_assoc. reflexivity.
Qed.

(** X10: the responses written and those waiting on the response queue are,
    in this order, a subsequence of the responses the workers have put on
    the queue; until [_close] clears the queue they are all of them. *)
Theorem responses_in_order (input : list read_event) (s : state) :
  reachable input s ->
  (written (log s) ++ responses_of (outq s)) `sublist_of` responded (log s) /\
  (out_cleared (ctl s) = false ->
   written (log s) ++ responses_of (outq s) = responded (log s)).
Proof.
  intros Hr. destruct (written_reachable _ _ Hr) as [Hsub Heq].
  split; [exact Hsub | exact Heq].
Qed.


(** X12: when the requests accepted on the input have pairwise different
    ids, so have the responses written. *)
Theorem no_duplicate_ids (input : list read_event) (s : state) :
  reachable input s ->
  NoDup (req_id <$> accepted input) ->
  NoDup (resp_id <$> written (log s)).
Proof.
  intros Hr Hnd.
  apply (submseteq_NoDup_r _ (resp_id <$> (respond <$> accepted input))).
  - apply fmap_submseteq. apply (written_answers _ _ Hr).
  - rewrite <- list_fmap_compose.
    erewrite list_fmap_ext; [exact Hnd|].
    intros i r _. simpl. unfold respond.
    destruct (translate (req_source r) (req_suggestions r)); reflexivity.
Qed.

(** X13: with a single worker the responses are written in the order of
    their requests on the input. *)
Theorem single_worker_order (input : list read_event) (s : state) :
  number_of_threads <= 1 ->
  reachable input s ->
  written (log s) `sublist_of` (respond <$> accepted input).
Proof.
  intros Hn Hr.
  destruct (written_reachable _ _ Hr) as [Hw _].
  pose proof (single_worker_reachable _ _ Hn Hr) as Hone.
  destruct (dequeued_reachable _ _ Hr) as (dropped & Hd & _).
  pose proof (enqueued_reachable _ _ Hr) as He. unfold enqueued_inv in He.
  transitivity (responded (log s)).
  { etransitivity; [|exact Hw]. apply sublist_inserts_r. reflexivity. }
  transitivity (respond <$> dequeued (log s)).
  { rewrite <- Hone. apply sublist_inserts_r. reflexivity. }
  apply fmap_sublist. rewrite <- He, Hd, <- !app_assoc.
  apply sublist_inserts_r. reflexivity.
Qed.

Lemma stopped_outcome (input : list read_event) (s : state) (outcome : option exn) :
  reachable input s ->
  ctl s = CStopped outcome ->
  outcome = first_error input /\
  raised (log s) = match outcome with Some e => [e] | None => [] end /\
  enqueued (log s) = accepted input.
Proof.
  intros Hr Hc.
  destruct (outcome_reachable _ _ Hr) as [H1 H2]. rewrite Hc in H1, H2. simpl in H1, H2.
  pose proof (enqueued_reachable _ _ Hr) as He. unfold enqueued_inv in He.
  rewrite Hc in He. simpl in He. rewrite app_nil_r in He. auto.
Qed.


(** X16: the program cannot hang and cannot run for ever: before
    [serve_forever] has ended some thread can move, no execution has more
    atomic actions than 7 n + 10 + 5 m for n workers and m read events, and
    there is an execution to the end, where [serve_forever] returns, or
    raises the exception of the first rejected line. *)
Theorem always_terminates (input : list read_event) :
  (forall s, reachable input s -> (forall outcome, ctl s <> CStopped outcome) ->
             exists t s', exec t s = Some s') /\
  (forall sched s, run sched (init input) = Some s ->
                   length sched <= 7 * number_of_threads + 10 + 5 * length input) /\
  (exists sched s, run sched (init input) = Some s /\
                   ctl s = CStopped (first_error input)).
Proof.
  split; [apply progress|]. split.
  - intros sched s Hrun. apply run_bounded in Hrun.
    unfold measure in Hrun at 2. simpl in Hrun.
    rewrite length_replicate, count_busy_replicate in Hrun. lia.
  - destruct (terminates input (S (measure (init input))) (init input))
      as (sched & s & outcome & Hrun & Hs); [lia | apply reachable_init|].
    exists sched, s. split; [exact Hrun|].
    assert (Hr : reachable input s) by (exists sched; exact Hrun).
    destruct (stopped_outcome _ _ _ Hr Hs) as [-> _]. exact Hs.
Qed.

(** X17: once [_close] has cleared the request queue no request is put on
    it and no worker takes one from it: what was waiting is never served. *)
Theorem nothing_dispatched_after_clear (input : list read_event) (s : state)
    (l1 l2 : list event) :
  reachable input s ->
  log s = l1 ++ EvClearIn :: l2 ->
  Forall (fun e => is_dispatch_event e = false) l2 /\
  enqueued l2 = [] /\ dequeued l2 = [].
Proof.
  intros Hr Hlog. pose proof (after_clear_reachable _ _ Hr _ _ Hlog) as H.
  split; [exact H|]. clear Hlog.
  induction H as [|e l2 He _ [IH1 IH2]]; [split; reflexivity|].
  destruct e; try discriminate He; split; assumption.
Qed.

(** X18: once the printer has taken its marker nothing more is written;
    a response put on the queue behind the marker stays there. *)
Theorem nothing_written_after_marker (input : list read_event) (s : state)
    (l1 l2 : list event) :
  reachable input s ->
  log s = l1 ++ EvPrinterExit :: l2 ->
  written l2 = [] /\ printer s = PExited /\ exec TPrinter s = None.
Proof.
  intros Hr Hlog. split; [apply (after_printer_exit_reachable _ _ Hr _ _ Hlog)|].
  assert (Hp : printer s = PExited).
  { apply (printer_exit_logged _ _ Hr). rewrite Hlog. apply in_elt. }
  split; [exact Hp|]. simpl. unfold exec_printer. rewrite Hp. reflexivity.
Qed.


Lemma starting_reachable (input : list read_event) (s : state) :
  reachable input s -> starting_inv input s.
Proof.
  revert s. apply reachable_induction; [|intros t s s' Hr IH H].
  - intros _. repeat split. apply Forall_replicate. reflexivity.
  - unfold starting_inv in *.
    destruct t; exec_inv H; cbn [in_start] in *; try discriminate;
      rewrite ?List.filter_app; cbn [List.filter is_dispatch_event]; rewrite ?app_nil_r.
    all: intros Hs; destruct (IH Hs) as (Hin & Hq & Hd & Hb).
    all: try (repeat split; auto; apply Forall_insert; auto; reflexivity).
    all: try congruence.
    all: apply (Forall_lookup_1 _ _ _ _ Hb) in Heqo; discriminate Heqo.
Qed.

(** X14: the threads are started once each, the printer first and then the
    workers in the order of the pool, before anything else happens: as long
    as the main thread is starting threads, no line has been read and
    nothing has been put on or taken from the request queue. *)
Theorem startup_order (input : list read_event) (s : state) :
  reachable input s ->
  List.filter is_start_event (log s) = start_done number_of_threads (ctl s) /\
  (in_start (ctl s) = true ->
   stdin s = input /\ List.filter is_dispatch_event (log s) = []).
Proof.
  intros Hr. split.
  - rewrite (start_done_reachable _ _ Hr), (pool_size _ _ Hr). reflexivity.
  - intros Hs. destruct (starting_reachable _ _ Hr Hs) as (Hin & _ & Hd & _). auto.
Qed.

End Bookkeeping.

(** ** The process *)

Section ProcessProperties.
Context {RT : Runtime} {HO : Host}.

Lemma process_step (argv : list string) (input : list read_event) (t : tid)
    (p p' : process) :
  process_inv argv input p -> pexec argv input t p = Some p' -> process_inv argv input p'.
Proof.
  intros Hinv H. destruct p as [|model|engine s|engine s outcome|e]; unfold pexec in H.
  - destruct t; try discriminate.
    destruct (parse_args argv) eqn:Ha; inversion H; subst; simpl; auto.
  - destruct t; try discriminate. simpl in Hinv.
    destruct (load_decoder model) as [engine|e] eqn:Hl; inversion H; subst; simpl.
    + split; [eauto | apply reachable_init].
    + right. eauto.
  - destruct Hinv as [Hm Hr].
    assert (Hstep : forall s', @exec RT engine t s = Some s' -> PServe engine s' = p' ->
                               process_inv argv input p').
    { intros s' Hs' <-. split; [exact Hm|]. eapply reachable_step; eauto. }
    destruct t.
    + destruct (ctl s) eqn:Hc;
        try (destruct (@exec RT engine TMain s) as [s1|]; [|discriminate H];
             inversion H; subst; apply (Hstep s1 eq_refl eq_refl)).
      inversion H; subst. simpl. auto.
    + destruct (@exec RT engine (TWorker i) s) as [s1|]; [|discriminate H].
      inversion H; subst. apply (Hstep s1 eq_refl eq_refl).
    + destruct (@exec RT engine TPrinter s) as [s1|]; [|discriminate H].
      inversion H; subst. apply (Hstep s1 eq_refl eq_refl).
  - destruct Hinv as (Hm & Hr & Hc).
    destruct t; try discriminate.
    + destruct (@exec RT engine (TWorker i) s) as [s'|] eqn:He; inversion H; subst.
      split; [exact Hm|]. split; [eapply reachable_step; eauto|].
      eapply stopped_step; eauto.
    + destruct (@exec RT engine TPrinter s) as [s'|] eqn:He; inversion H; subst.
      split; [exact Hm|]. split; [eapply reachable_step; eauto|].
      eapply stopped_step; eauto.
  - discriminate.
Qed.

Lemma process_run (argv : list string) (input : list read_event) (sched : list tid)
    (p p' : process) :
  process_inv argv input p -> prun argv input sched p = Some p' ->
  process_inv argv input p'.
Proof.
  revert p. induction sched as [|t sched IH]; intros p Hinv H; simpl in H.
  - inversion H; subst. exact Hinv.
  - destruct (pexec argv input t p) as [p1|] eqn:H1; [|discriminate].
    apply (IH p1); [|exact H]. eapply process_step; eauto.
Qed.


(** X21: when [parse_args] or the constructor of the engine raises,
    [run_main] raises the same before anything is started: no thread, no
    line read, and no [decoder.close()]. *)
Theorem startup_failure (argv : list string) (input : list read_event)
    (sched : list tid) (p : process) :
  prun argv input sched PArgs = Some p ->
  (forall e, parse_args argv = Raise e -> p = PArgs \/ p = PFailed e) /\
  (forall model e,
      parse_args argv = Ok model -> load_decoder model = Raise e ->
      p = PArgs \/ p = PLoad model \/ p = PFailed e).
Proof.
  intros Hrun. pose proof (process_run argv input sched PArgs _ I Hrun) as Hinv.
  split.
  - intros e He. destruct p as [|model|engine s|engine s outcome|e']; simpl in Hinv; auto.
    + congruence.
    + destruct Hinv as [(model & Hm & _) _]. congruence.
    + destruct Hinv as [(model & Hm & _) _]. congruence.
    + destruct Hinv as [Hf|(model & Hm & _)]; [right|]; congruence.
  - intros model e Hm Hl.
    destruct p as [|model'|engine s|engine s outcome|e']; simpl in Hinv; auto.
    + right. left. congruence.
    + destruct Hinv as [(model' & Hm' & Hl') _]. congruence.
    + destruct Hinv as [(model' & Hm' & Hl') _]. congruence.
    + destruct Hinv as [Hf|(model' & Hm' & Hl')]; [congruence|].
      right. right. congruence.
Qed.

End ProcessProperties.

(** ** An execution that serves every line *)

Section Service.
Context {RT : Runtime} {EN : Engine}.





















End Service.

(** ** More of the code at work on the small runtime *)

Section MoreExamples.
#[local] Existing Instance Toy.runtime.
#[local] Existing Instance Toy.identity_engine.

Lemma split_join_witness : split space (join " " ["a"; ""; "b"]) = ["a"; ""; "b"].
Proof.
  apply (split_join ["a"; ""; "b"]).
  - discriminate.
  - repeat constructor.
Defined.

Lemma suggestions_not_an_array_witness :
  ((JStr "" : json Z) = JStr "" \/ (JStr "" : json Z) = JObj [] ->
   @from_json_string Demo.runtime Demo.line_empty_suggestions
   = Ok (mkTranslationRequest 3%Z (split space "x") [])) /\
  ((JStr "" : json Z) <> JStr "" -> (JStr "" : json Z) <> JObj [] ->
   exists e, @from_json_string Demo.runtime Demo.line_empty_suggestions = Raise e /\
             exn_type e = "TypeError").
Proof.
  apply (@suggestions_not_an_array Demo.runtime Demo.line_empty_suggestions
           [("id", JInt 3%Z); ("source", JStr "x"); ("suggestions", JStr "")]
           (JInt 3%Z) 3%Z "x" (JStr "")).
  - reflexivity.
  - reflexivity.
  - reflexivity.
  - reflexivity.
  - reflexivity.
  - discriminate.
Defined.

Lemma final_served_reachable : reachable [RLine Toy.line_abc] Toy.final_served.
Proof. exists Toy.sched_served. vm_compute. reflexivity. Defined.

Lemma final_late_reachable : reachable [RLine Toy.line_abc] Toy.final_late.
Proof. exists Toy.sched_late. vm_compute. reflexivity. Defined.

Lemma state_busy_reachable : reachable [RLine Toy.line_abc] Toy.state_busy.
Proof. exists [TMain; TMain; TMain; TMain; TWorker 0]. vm_compute. reflexivity. Defined.

Lemma output_answers_input_witness :
  stdout Toy.final_served = lines_of (written (log Toy.final_served)) /\
  written (log Toy.final_served) ⊆+ (respond <$> accepted [RLine Toy.line_abc]) /\
  length (written (log Toy.final_served)) <= length (accepted [RLine Toy.line_abc]).
Proof. apply (output_answers_input _ _ final_served_reachable). Defined.

Lemma requests_conserved_witness :
  exists dropped,
    accepted [RLine Toy.line_abc]
    = dequeued (log Toy.state_busy) ++ requests_of (inq Toy.state_busy) ++ dropped
        ++ (if in_try (ctl Toy.state_busy) then accepted (stdin Toy.state_busy) else []) /\
    (pills_due number_of_threads (ctl Toy.state_busy) = None -> dropped = []).
Proof. apply (requests_conserved _ _ state_busy_reachable). Defined.

Lemma responses_in_order_witness :
  (written (log Toy.final_late) ++ responses_of (outq Toy.final_late))
    `sublist_of` responded (log Toy.final_late) /\
  (out_cleared (ctl Toy.final_late) = false ->
   written (log Toy.final_late) ++ responses_of (outq Toy.final_late)
   = responded (log Toy.final_late)).
Proof. apply (responses_in_order _ _ final_late_reachable). Defined.


Lemma no_duplicate_ids_witness : NoDup (resp_id <$> written (log Toy.final_served)).
Proof.
  apply (no_duplicate_ids _ _ final_served_reachable).
  vm_compute. constructor; [intros H; inversion H | constructor].
Defined.

Lemma single_worker_order_witness :
  written (log Toy.final_served) `sublist_of` (respond <$> accepted [RLine Toy.line_abc]).
Proof.
  apply single_worker_order; [vm_compute; lia | exact final_served_reachable].
Defined.

Lemma startup_order_witness :
  List.filter is_start_event (log Toy.final_served)
  = start_done number_of_threads (ctl Toy.final_served) /\
  (in_start (ctl Toy.final_served) = true ->
   stdin Toy.final_served = [RLine Toy.line_abc] /\
   List.filter is_dispatch_event (log Toy.final_served) = []).
Proof. apply (startup_order _ _ final_served_reachable). Defined.


Lemma nothing_dispatched_after_clear_witness :
  Forall (fun e => is_dispatch_event e = false)
    [EvClearOut; EvPillIn; EvPillOut; EvPrinterExit; EvRespond 0 Toy.response_abc;
     EvWorkerExit 0; EvJoinWorker 0; EvJoinPrinter] /\
  enqueued [EvClearOut; EvPillIn; EvPillOut; EvPrinterExit; EvRespond 0 Toy.response_abc;
            EvWorkerExit 0; EvJoinWorker 0; EvJoinPrinter] = [] /\
  dequeued [EvClearOut; EvPillIn; EvPillOut; EvPrinterExit; EvRespond 0 Toy.response_abc;
            EvWorkerExit 0; EvJoinWorker 0; EvJoinPrinter] = [].
Proof.
  apply (nothing_dispatched_after_clear [RLine Toy.line_abc] Toy.final_late
           [EvStartPrinter; EvStartWorker 0; EvEnqueue Toy.request_abc;
            EvDequeue 0 (PyRequest Toy.request_abc)]).
  - exact final_late_reachable.
  - reflexivity.
Defined.

Lemma nothing_written_after_marker_witness :
  written [EvRespond 0 Toy.response_abc; EvWorkerExit 0; EvJoinWorker 0; EvJoinPrinter] = [] /\
  printer Toy.final_late = PExited /\
  exec TPrinter Toy.final_late = None.
Proof.
  apply (nothing_written_after_marker [RLine Toy.line_abc] Toy.final_late
           [EvStartPrinter; EvStartWorker 0; EvEnqueue Toy.request_abc;
            EvDequeue 0 (PyRequest Toy.request_abc);
            EvClearIn; EvClearOut; EvPillIn; EvPillOut]).
  - exact final_late_reachable.
  - reflexivity.
Defined.



Lemma startup_failure_witness :
  (forall e, @parse_args _ Demo.host ["a"; "b"] = Raise e ->
             PFailed (Exn "SystemExit" "2") = PArgs \/ PFailed (Exn "SystemExit" "2") = PFailed e) /\
  (forall model e,
      @parse_args _ Demo.host ["a"; "b"] = Ok model ->
      @load_decoder _ Demo.host model = Raise e ->
      PFailed (Exn "SystemExit" "2") = PArgs \/
      PFailed (Exn "SystemExit" "2") = PLoad model \/
      PFailed (Exn "SystemExit" "2") = PFailed e).
Proof.
  apply (@startup_failure _ Demo.host ["a"; "b"] [] [TMain]). reflexivity.
Defined.

Example model_not_found :
  @prun _ Demo.host ["other.pt"] [] [TMain; TMain] PArgs
  = Some (PFailed (Exn "IOError" "No such file or directory")).
Proof. reflexivity. Qed.



(** With two workers the responses can be written in another order than
    the requests were read. *)
Example responses_can_overtake :
  exists s,
    @run _ Demo.two_workers Demo.sched_overtake
      (@init _ Demo.two_workers [RLine Toy.line_abc; RLine Toy.line_sugg]) = Some s /\
    resp_id <$> written (log s) = [2%Z; 1%Z] /\
    req_id <$> enqueued (log s) = [1%Z; 2%Z].
Proof. eexists. split; [vm_compute; reflexivity|]. vm_compute. auto. Qed.

(** An interrupt ends the read loop like the end of the stream: the lines
    behind it are not read and nothing is raised. *)
Example interrupt_is_a_clean_end :
  first_error [RLine Toy.line_abc; RInterrupt; RLine Toy.line_bad] = None /\
  accepted [RLine Toy.line_abc; RInterrupt; RLine Toy.line_bad] = [Toy.request_abc].
Proof. split; reflexivity. Qed.

End MoreExamples.
